(** * dvc/utils/serialize/_config.py: the INI-backed configuration codec

    A shallow embedding of [join_path], [split_path], [config_literal_eval],
    [config_literal_dump], [flatten_sections], [parse_config] and [_dump],
    followed by the properties of the specification that they decide.

    Conventions of the embedding.
    - A Python [str] is a [string]; one [ascii] stands for one code point
      below 256, so the strings of the model are the Latin-1 strings of
      Python.
    - A Python [dict] is an association list in insertion order whose keys are
      pairwise distinct; [dict_set] keeps the position of a key that is
      already bound, as Python does.
    - A call that can raise returns a [result]; the exception classes are the
      constructors of [exn].
    - [ast.literal_eval], [json.loads], [float.__repr__] and
      [ConfigParser.read_string] belong to the Python library, not to this
      module: they are parameters ([pylib]).  The code of the module is
      translated once, over an arbitrary [pylib]. *)

From Stdlib Require Import String Ascii List ZArith Bool Lia PeanoNat.
From Stdlib Require Import Permutation.
From Stdlib Require Import Floats DecimalString.
From Stdlib Require DecimalZ DecimalPos.
Import ListNotations.
Local Open Scope list_scope.
Local Open Scope string_scope.

Set Implicit Arguments.
Set Warnings "-register-all".

(** ** Exceptions and results *)

Inductive exn : Type :=
| AssertionError
| ValueError
| SyntaxError
| TypeError
| AttributeError
| DuplicateSectionError
| ConfigFileCorruptedError.

Inductive result (A : Type) : Type :=
| Ok (a : A)
| Raise (e : exn).

Arguments Ok {A} a.
Arguments Raise {A} e.

Definition bind {A B : Type} (r : result A) (k : A -> result B) : result B :=
  match r with
  | Ok a => k a
  | Raise e => Raise e
  end.

Notation "x <- r ;; k" := (bind r (fun x => k))
  (at level 61, r at next level, right associativity).

(** ** Strings *)

Definition dot : ascii := "."%char.
Definition squote : ascii := "'"%char.
Definition dquote : ascii := "034"%char.
Definition backslash : ascii := "\"%char.
Definition newline : ascii := "010"%char.

(** [c in s] for a one-character [c]. *)
Fixpoint contains (c : ascii) (s : string) : bool :=
  match s with
  | EmptyString => false
  | String a s' => Ascii.eqb a c || contains c s'
  end.

(** The longest prefix of [s] whose characters satisfy [p], and the rest. *)
Fixpoint span (p : ascii -> bool) (s : string) : string * string :=
  match s with
  | EmptyString => (EmptyString, EmptyString)
  | String a s' =>
      if p a then let (run, rest) := span p s' in (String a run, rest)
      else (EmptyString, s)
  end.

Fixpoint str_forall (p : ascii -> bool) (s : string) : bool :=
  match s with
  | EmptyString => true
  | String a s' => p a && str_forall p s'
  end.

(** [sep.join(parts)]. *)
Fixpoint str_join (sep : string) (parts : list string) : string :=
  match parts with
  | [] => EmptyString
  | [x] => x
  | x :: rest => x ++ sep ++ str_join sep rest
  end.

(** ** [repr] of a [str]

    CPython's [unicode_repr]: single quotes unless the string has a single
    quote and no double quote; the chosen quote and the backslash are
    escaped with a backslash; tab, newline and carriage return get their
    letter escapes; every other character that is not printable is written
    [\xhh].  Below 256 the printable characters are 32..126, 161..172 and
    174..255. *)

Definition hex_digit (n : nat) : ascii :=
  match n with
  | 0 => "0" | 1 => "1" | 2 => "2" | 3 => "3" | 4 => "4" | 5 => "5"
  | 6 => "6" | 7 => "7" | 8 => "8" | 9 => "9" | 10 => "a" | 11 => "b"
  | 12 => "c" | 13 => "d" | 14 => "e" | _ => "f"
  end%char.

Definition printable (c : ascii) : bool :=
  let n := nat_of_ascii c in
  (((32 <=? n) && (n <=? 126))
   || ((161 <=? n) && (n <=? 172))
   || ((174 <=? n) && (n <=? 255)))%nat.

Definition repr_char (quote c : ascii) : string :=
  if Ascii.eqb c quote || Ascii.eqb c backslash then
    String backslash (String c EmptyString)
  else if Ascii.eqb c "009"%char then "\t"
  else if Ascii.eqb c "010"%char then "\n"
  else if Ascii.eqb c "013"%char then "\r"
  else if printable c then String c EmptyString
  else
    let n := nat_of_ascii c in
    String backslash
      (String "x"%char
         (String (hex_digit (n / 16)) (String (hex_digit (n mod 16)) EmptyString))).

Fixpoint repr_body (quote : ascii) (s : string) : string :=
  match s with
  | EmptyString => EmptyString
  | String c s' => repr_char quote c ++ repr_body quote s'
  end.

Definition repr_quote (s : string) : ascii :=
  if contains squote s && negb (contains dquote s) then dquote else squote.

Definition repr (s : string) : string :=
  let q := repr_quote s in
  String q (repr_body q s ++ String q EmptyString).

(** ** PathCodec *)

(** [join_path(path)]: the keys joined with a dot, a key that contains a
    dot being replaced by its [repr]. *)
Definition join_key (x : string) : string :=
  if contains dot x then repr x else x.

Definition join_path (path : list string) : string :=
  str_join "." (map join_key path).

(** One match of the pattern of [split_path], anchored at the head of the
    text that is left. The pattern is a choice of three runs followed by a
    tail: a run without single quote between single quotes (group 1), a run
    without double quote between double quotes (group 2), or a run without
    dot (group 3); the tail is a dot or [$]. [grp] is the group that took
    part in the match and [rest] the text after the match. *)
Record re_match : Type := mk_match { grp : string; rest : string }.

(** [$] without [re.MULTILINE]: the end of the string, or just before a
    newline that ends the string. *)
Definition at_dollar (s : string) : bool :=
  match s with
  | EmptyString => true
  | String c EmptyString => Ascii.eqb c newline
  | _ => false
  end.

(** The tail [(?:[.]|$)]: the separator is tried first. *)
Definition match_tail (g s : string) : option re_match :=
  match s with
  | String c s' =>
      if Ascii.eqb c dot then Some (mk_match g s')
      else if at_dollar s then Some (mk_match g s) else None
  | EmptyString => Some (mk_match g EmptyString)
  end.

(** A quoted run: the quote, the longest run without it, the quote, the
    tail. A shorter run cannot be followed by the quote, so there is nothing
    to backtrack into. *)
Definition match_quoted (q : ascii) (s : string) : option re_match :=
  match s with
  | String c s' =>
      if Ascii.eqb c q then
        let (run, after) := span (fun a => negb (Ascii.eqb a q)) s' in
        match after with
        | String _ after' => match_tail run after'
        | EmptyString => None
        end
      else None
  | EmptyString => None
  end.

Definition match_unquoted (s : string) : option re_match :=
  let (run, after) := span (fun a => negb (Ascii.eqb a dot)) s in
  match_tail run after.

(** The three alternatives, in the order of the pattern. *)
Definition match_here (s : string) : option re_match :=
  match match_quoted squote s with
  | Some m => Some m
  | None =>
      match match_quoted dquote s with
      | Some m => Some m
      | None => match_unquoted s
      end
  end.

(** [re.finditer] looks for the next match at or after the cursor: the
    number of characters it had to skip, and the match. *)
Fixpoint search (s : string) : option (nat * re_match) :=
  match match_here s with
  | Some m => Some (0, m)
  | None =>
      match s with
      | EmptyString => None
      | String _ s' =>
          match search s' with
          | Some (k, m) => Some (S k, m)
          | None => None
          end
      end
  end.

(** The loop of [split_path] over the text [s] that is left. [fuel] bounds
    the number of matches. The [assert] fails when the match does not start
    at the cursor. After an empty match that is not at the end of the text
    the iterator moves on by one character. *)
Fixpoint split_loop (fuel : nat) (s : string) (acc : list string)
  : result (list string) :=
  match fuel with
  | 0 => Ok acc
  | S fuel' =>
      match search s with
      | None => Ok acc
      | Some (skipped, m) =>
          match skipped with
          | S _ => Raise AssertionError
          | 0 =>
              match rest m with
              | EmptyString => Ok (acc ++ [grp m])%list
              | String c s' =>
                  if Nat.eqb (String.length (rest m)) (String.length s)
                  then split_loop fuel' s' ((acc ++ [grp m])%list)
                  else split_loop fuel' (rest m) ((acc ++ [grp m])%list)
              end
          end
      end
  end.

Definition split_path (path : string) : result (list string) :=
  split_loop (S (String.length path)) path [].


(** ** Dictionaries in insertion order *)

Section Dict.
Variable V : Type.

Definition dict : Type := list (string * V).

Fixpoint dict_get (k : string) (d : dict) : option V :=
  match d with
  | [] => None
  | (k', v) :: d' => if String.eqb k' k then Some v else dict_get k d'
  end.

Definition dict_mem (k : string) (d : dict) : bool :=
  match dict_get k d with Some _ => true | None => false end.

(** [d[k] = v]: a bound key keeps its place, a new key goes last. *)
Fixpoint dict_set (k : string) (v : V) (d : dict) : dict :=
  match d with
  | [] => [(k, v)]
  | (k', v') :: d' =>
      if String.eqb k' k then (k', v) :: d' else (k', v') :: dict_set k v d'
  end.

(** [d.setdefault(k, v)], for its effect on [d]. *)
Definition dict_setdefault (k : string) (v : V) (d : dict) : dict :=
  if dict_mem k d then d else dict_set k v d.

(** [d.update(e)]: the entries of [e] are set in the order of [e]. *)
Definition dict_update (d e : dict) : dict :=
  fold_left (fun acc kv => dict_set (fst kv) (snd kv) acc) e d.

(** [d.pop(k, None)], for its effect on [d]. *)
Fixpoint dict_pop (k : string) (d : dict) : dict :=
  match d with
  | [] => []
  | (k', v) :: d' => if String.eqb k' k then d' else (k', v) :: dict_pop k d'
  end.

Definition dict_keys (d : dict) : list string := map fst d.
End Dict.

(** ** Values

    What [literal_eval] and [json.loads] return, and what a configuration
    tree holds. A nested tree is a [VDict]; every other value is a leaf for
    [flatten_sections]. The keys of a [VDict] are strings. A [VSet] lists
    its elements without repetition, in no particular order. *)

Inductive value : Type :=
| VNone
| VBool (b : bool)
| VInt (z : Z)
| VFloat (f : float)
| VStr (s : string)
| VList (l : list value)
| VTuple (l : list value)
| VSet (l : list value)
| VDict (d : list (string * value)).

Definition tree : Type := dict value.

(** [isinstance(v, dict)]. *)
Definition is_dict (v : value) : bool :=
  match v with VDict _ => true | _ => false end.

(** *** Equality of Python values

    [int == float] compares the exact values: a finite float is
    [(+/-) m * 2 ^ e]. *)
Definition float_eq_Z (f : float) (z : Z) : bool :=
  match Prim2SF f with
  | S754_zero _ => Z.eqb z 0
  | S754_finite s m e =>
      let v := if s then Z.neg m else Z.pos m in
      if Z.leb 0 e then Z.eqb z (v * 2 ^ e)
      else Z.eqb (v mod 2 ^ (- e)) 0 && Z.eqb z (v / 2 ^ (- e))
  | _ => false
  end.

Inductive number : Type :=
| NZ (z : Z)
| NF (f : float).

(** [bool] is a subclass of [int]: [True == 1]. *)
Definition as_number (v : value) : option number :=
  match v with
  | VBool b => Some (NZ (if b then 1 else 0)%Z)
  | VInt z => Some (NZ z)
  | VFloat f => Some (NF f)
  | _ => None
  end.

Definition number_eq (a b : number) : bool :=
  match a, b with
  | NZ x, NZ y => Z.eqb x y
  | NF x, NF y => PrimFloat.eqb x y
  | NZ x, NF y => float_eq_Z y x
  | NF x, NZ y => float_eq_Z x y
  end.

(** [a == b]. Lists and tuples compare element by element, sets and dicts
    regardless of order. The values compared here are never the same object,
    so the identity shortcut of the containers plays no part. *)
Fixpoint py_eq (a b : value) {struct a} : bool :=
  match a, b with
  | VNone, VNone => true
  | VStr x, VStr y => String.eqb x y
  | VList l1, VList l2
  | VTuple l1, VTuple l2 =>
      (fix all2 (l1 l2 : list value) : bool :=
         match l1, l2 with
         | [], [] => true
         | x :: l1', y :: l2' => py_eq x y && all2 l1' l2'
         | _, _ => false
         end) l1 l2
  | VSet l1, VSet l2 =>
      Nat.eqb (length l1) (length l2)
      && (fix sub (l1 : list value) : bool :=
            match l1 with
            | [] => true
            | x :: l1' => existsb (py_eq x) l2 && sub l1'
            end) l1
  | VDict d1, VDict d2 =>
      Nat.eqb (length d1) (length d2)
      && (fix sub (d1 : list (string * value)) : bool :=
            match d1 with
            | [] => true
            | (k, x) :: d1' =>
                match dict_get k d2 with
                | Some y => py_eq x y
                | None => false
                end && sub d1'
            end) d1
  | _, _ =>
      match as_number a, as_number b with
      | Some x, Some y => number_eq x y
      | _, _ => false
      end
  end.


(** ** [json.dumps] with its default arguments

    [ensure_ascii] escapes every character outside 32..126, [allow_nan]
    writes the three special floats by name, the separators are [", "] and
    [": "]. A finite float is written by [float.__repr__], which is left to
    the library ([float_repr]). A set is not serialisable. *)

Definition json_char (c : ascii) : string :=
  if Ascii.eqb c dquote || Ascii.eqb c backslash then
    String backslash (String c EmptyString)
  else if Ascii.eqb c "010"%char then "\n"
  else if Ascii.eqb c "013"%char then "\r"
  else if Ascii.eqb c "009"%char then "\t"
  else if Ascii.eqb c "008"%char then "\b"
  else if Ascii.eqb c "012"%char then "\f"
  else
    let n := nat_of_ascii c in
    if ((32 <=? n) && (n <=? 126))%nat then String c EmptyString
    else
      String backslash
        (String "u"%char
           (String "0"%char
              (String "0"%char
                 (String (hex_digit (n / 16))
                    (String (hex_digit (n mod 16)) EmptyString))))).

Fixpoint json_body (s : string) : string :=
  match s with
  | EmptyString => EmptyString
  | String c s' => json_char c ++ json_body s'
  end.

Definition json_string (s : string) : string :=
  String dquote (json_body s ++ String dquote EmptyString).

(** [str(z)] for an [int]. *)
Definition str_of_int (z : Z) : string := NilZero.string_of_int (Z.to_int z).

Section JsonDumps.
Variable float_repr : float -> string.

Definition json_float (f : float) : string :=
  if negb (PrimFloat.eqb f f) then "NaN"
  else if PrimFloat.eqb f infinity then "Infinity"
  else if PrimFloat.eqb f neg_infinity then "-Infinity"
  else float_repr f.

Definition dumps_items (dumps : value -> result string)
  : list value -> result (list string) :=
  fix go (l : list value) : result (list string) :=
    match l with
    | [] => Ok []
    | x :: l' => a <- dumps x ;; b <- go l' ;; Ok (a :: b)
    end.

Definition dumps_entries (dumps : value -> result string)
  : list (string * value) -> result (list string) :=
  fix go (d : list (string * value)) : result (list string) :=
    match d with
    | [] => Ok []
    | (k, x) :: d' =>
        a <- dumps x ;; b <- go d' ;; Ok ((json_string k ++ ": " ++ a) :: b)
    end.

Fixpoint json_dumps (v : value) : result string :=
  match v with
  | VNone => Ok "null"
  | VBool true => Ok "true"
  | VBool false => Ok "false"
  | VInt z => Ok (str_of_int z)
  | VFloat f => Ok (json_float f)
  | VStr s => Ok (json_string s)
  | VList l | VTuple l =>
      items <- dumps_items json_dumps l ;;
      Ok ("[" ++ str_join ", " items ++ "]")
  | VSet _ => Raise TypeError
  | VDict d =>
      items <- dumps_entries json_dumps d ;;
      Ok ("{" ++ str_join ", " items ++ "}")
  end.
End JsonDumps.

(** ** The [ConfigParser] object

    [ConfigParser(interpolation=None)] with [optionxform = str]: the options
    of the default section and the named sections, in the order they were
    added, every option bound to its raw text. *)

Record parser : Type := mk_parser {
  cp_defaults : dict string;
  cp_sections : dict (dict string)
}.

Definition empty_parser : parser := mk_parser [] [].

(** [parser.sections()]: the default section is not listed. *)
Definition sections (p : parser) : list string := dict_keys (cp_sections p).

(** [parser.items(section)]: a copy of the defaults updated with the options
    of the section. *)
Definition items (p : parser) (section : string) : dict string :=
  match dict_get section (cp_sections p) with
  | Some opts => dict_update (cp_defaults p) opts
  | None => cp_defaults p
  end.

(** [parser.add_section(name)]: the default section's name is refused with
    [ValueError]; a name already there is a [DuplicateSectionError], a
    subclass of [configparser.Error]. *)
Definition add_section (name : string) (p : parser) : result parser :=
  if String.eqb name "DEFAULT" then Raise ValueError
  else if dict_mem name (cp_sections p) then Raise DuplicateSectionError
  else Ok (mk_parser (cp_defaults p) (dict_set name [] (cp_sections p))).

(** [parser[name].update(opts)]: every option is set in turn. *)
Definition update_section (name : string) (opts : dict string) (p : parser)
  : parser :=
  match dict_get name (cp_sections p) with
  | Some old =>
      mk_parser (cp_defaults p)
        (dict_set name (dict_update old opts) (cp_sections p))
  | None => p
  end.

(** [str.replace] of every newline by a newline and a tab. *)
Fixpoint indent_newlines (s : string) : string :=
  match s with
  | EmptyString => EmptyString
  | String c s' =>
      if Ascii.eqb c newline
      then String newline (String "009"%char (indent_newlines s'))
      else String c (indent_newlines s')
  end.

Definition write_line (kv : string * string) : string :=
  fst kv ++ " = " ++ indent_newlines (snd kv) ++ String newline EmptyString.

Definition write_section (name : string) (opts : dict string) : string :=
  "[" ++ name ++ "]" ++ String newline EmptyString
  ++ String.concat EmptyString (map write_line opts)
  ++ String newline EmptyString.

(** [parser.write(stream)]: the text that reaches the stream. *)
Definition cp_write (p : parser) : string :=
  (match cp_defaults p with
   | [] => EmptyString
   | _ => write_section "DEFAULT" (cp_defaults p)
   end)
  ++ String.concat EmptyString
       (map (fun s => write_section (fst s) (snd s)) (cp_sections p)).

(** ** The library

    [literal_eval] and [json_loads] raise or return a value; [read_string]
    yields the parser it has filled, or [None] when it raises a
    [configparser.Error]. *)

Record pylib : Type := mk_pylib {
  literal_eval : string -> result value;
  json_loads : string -> result value;
  float_repr : float -> string;
  read_string : string -> option parser
}.

(** ** The module, over a library *)

Section Config.
Variable L : pylib.

(** *** ValueCodec *)

(** [config_literal_eval(s)]: [literal_eval], then [json.loads] when that
    raised [ValueError] or [SyntaxError], then [s] itself when that raised
    [ValueError]. *)
Definition config_literal_eval (s : string) : result value :=
  match literal_eval L s with
  | Ok v => Ok v
  | Raise ValueError | Raise SyntaxError =>
      match json_loads L s with
      | Ok v => Ok v
      | Raise ValueError => Ok (VStr s)
      | Raise e => Raise e
      end
  | Raise e => Raise e
  end.

(** [config_literal_dump(v)]. *)
Definition config_literal_dump (v : value) : result string :=
  match v with
  | VStr s =>
      r <- config_literal_eval s ;;
      if py_eq r v then Ok s else json_dumps (float_repr L) v
  | _ => json_dumps (float_repr L) v
  end.

(** *** TreeFlattener *)

Definition section_map : Type := dict (dict value).

(** The [for] loop of [rec]: a nested dict is visited at once, any other
    value is put in [section]. *)
Definition rec_loop
    (rec : value -> list string -> section_map -> section_map)
    (path : list string)
  : list (string * value) -> section_map -> dict value
    -> section_map * dict value :=
  fix loop (d : list (string * value)) (res : section_map)
      (section : dict value) : section_map * dict value :=
    match d with
    | [] => (res, section)
    | (k, v) :: d' =>
        if is_dict v then loop d' (rec v (path ++ [k])%list res) section
        else loop d' res (dict_set k v section)
    end.

(** [res[name]] on the [defaultdict]: the section, made empty when it is
    missing. *)
Definition res_get (name : string) (res : section_map) : dict value :=
  match dict_get name res with Some s => s | None => [] end.

(** [rec(d, path)], as the change it makes to [res]. It is only called on
    dicts. *)
Fixpoint rec (node : value) (path : list string) (res : section_map)
  : section_map :=
  match node with
  | VDict d =>
      let name := join_path path in
      let res1 := dict_setdefault name (@nil (string * value) : dict value) res in
      let (res2, section) := rec_loop rec path d res1 [] in
      dict_set name (dict_update (res_get name res2) section) res2
  | _ => res
  end.

Definition flatten_sections (root : tree) : section_map :=
  dict_pop "" (rec (VDict root) [] []).

(** *** TreeBuilder *)

(** The dict comprehension over [parser.items(section)]. *)
Fixpoint eval_items (its : dict string) (acc : dict value)
  : result (dict value) :=
  match its with
  | [] => Ok acc
  | (k, v) :: its' =>
      x <- config_literal_eval v ;; eval_items its' (dict_set k x acc)
  end.

(** [set.update(d)] adds the keys of [d]. *)
Definition set_update (l : list value) (keys : list string) : list value :=
  fold_left
    (fun acc k =>
       if existsb (py_eq (VStr k)) acc then acc else (acc ++ [VStr k])%list)
    keys l.

(** The walk along [parts] from [current] and the final [update], as the
    value that [current] has become. On the way, [in], item assignment and
    subscription by a [str] raise [TypeError] on everything but a dict; at
    the end, only dicts and sets have an [update]. *)
Fixpoint walk (parts : list string) (current : value) (its : dict string)
  : result value :=
  match parts with
  | [] =>
      match current with
      | VDict d => new <- eval_items its [] ;; Ok (VDict (dict_update d new))
      | VSet l =>
          new <- eval_items its [] ;; Ok (VSet (set_update l (dict_keys new)))
      | _ => Raise AttributeError
      end
  | part :: parts' =>
      match current with
      | VDict d =>
          match dict_get part d with
          | None =>
              child <- walk parts' (VDict []) its ;;
              Ok (VDict (dict_set part child d))
          | Some c =>
              child <- walk parts' c its ;;
              Ok (VDict (dict_set part child d))
          end
      | _ => Raise TypeError
      end
  end.

(** The loop over [parser.sections()]. *)
Fixpoint build (p : parser) (names : list string) (config : value)
  : result value :=
  match names with
  | [] => Ok config
  | section :: names' =>
      parts <- split_path section ;;
      config' <- walk parts config (items p section) ;;
      build p names' config'
  end.

(** [parse_config(text, path)]: a [configparser.Error] becomes
    [ConfigFileCorruptedError]; anything else goes through. *)
Definition parse_config (text : string) : result value :=
  match read_string L text with
  | None => Raise ConfigFileCorruptedError
  | Some p => build p (sections p) (VDict [])
  end.

(** *** [_dump] *)

(** The dict comprehension over [section.items()]. *)
Fixpoint dump_items (section : dict value) (acc : dict string)
  : result (dict string) :=
  match section with
  | [] => Ok acc
  | (k, v) :: section' =>
      x <- config_literal_dump v ;; dump_items section' (dict_set k x acc)
  end.

(** The loop over [prepared.items()]. *)
Fixpoint dump_sections (prepared : section_map) (p : parser)
  : result parser :=
  match prepared with
  | [] => Ok p
  | (name, section) :: prepared' =>
      p1 <- add_section name p ;;
      opts <- dump_items section [] ;;
      dump_sections prepared' (update_section name opts p1)
  end.

(** [_dump(data, stream)], as the text written to [stream]. *)
Definition _dump (data : tree) : result string :=
  p <- dump_sections (flatten_sections data) empty_parser ;;
  Ok (cp_write p).
End Config.

(** ** What CPython answers on the texts of the examples

    The theorems below hold for every library. Their instances and the
    counterexamples are evaluated with this one, which records what
    [ast.literal_eval], [json.loads], [float.__repr__] and
    [ConfigParser.read_string] answer on the listed texts. Off the lists it
    answers with an error; nothing below evaluates it there. *)

Module CPython.

Definition quoted (s : string) : string :=
  String dquote (s ++ String dquote EmptyString).

Definition literal_eval_table : list (string * result value) :=
  [ ("1", Ok (VInt 1));
    ("2", Ok (VInt 2));
    ("42", Ok (VInt 42));
    ("1.5", Ok (VFloat 1.5));
    (quoted "42", Ok (VStr "42"));
    (quoted "1", Ok (VStr "1"));
    ("{1, 2}", Ok (VSet [VInt 1; VInt 2]));
    ("{[]: 1}", Raise TypeError);
    ("true", Raise ValueError);
    ("null", Raise ValueError);
    ("NaN", Raise ValueError);
    ("hello", Raise ValueError);
    ("", Raise SyntaxError) ].

Definition json_loads_table : list (string * result value) :=
  [ ("true", Ok (VBool true));
    ("null", Ok VNone);
    ("NaN", Ok (VFloat nan));
    ("hello", Raise ValueError);
    ("", Raise ValueError) ].

Definition literal_eval (s : string) : result value :=
  match dict_get s literal_eval_table with
  | Some r => r
  | None => Raise SyntaxError
  end.

Definition json_loads (s : string) : result value :=
  match dict_get s json_loads_table with
  | Some r => r
  | None => Raise ValueError
  end.

Definition float_repr (f : float) : string :=
  if PrimFloat.eqb f 1.5 then "1.5" else "0.0".

(** The documents of the examples: [read_string] gives back the parser
    whose [write] produced the text. *)
Definition documents : list parser :=
  [ empty_parser;
    mk_parser [] [("x.y", [("z", "1"); ("w", quoted "1")])];
    mk_parser [] [("x", []); ("x.y", [("z", "1"); ("w", quoted "1")])];
    mk_parser [] [("a", [("b", "1")]); ("'a'", [("b", "2")])];
    mk_parser [] [("a", [("b", "{1, 2}")]); ("a.b", [("c", "1")])];
    mk_parser [] [("a", [("b", "1")]); ("a.b", [("c", "2")])];
    mk_parser [] [("a", [("b", "1")]); ("a.b", [])] ].

Definition read_string (text : string) : option parser :=
  find (fun p => String.eqb (cp_write p) text) documents.

Definition lib : pylib :=
  mk_pylib literal_eval json_loads float_repr read_string.

End CPython.

(** ** A decoder for what [json.dumps] writes

    A library whose [literal_eval] reads the decimal numerals that [str]
    writes for integers and the string literals that [json.dumps] writes,
    and whose [json.loads] reads the JSON names. It shows that the facts
    asked of the library in the scalar round trip can all hold together; on
    any other text it answers with an error that [config_literal_eval]
    catches. *)

Module Fragment.

(** A numeral is read when it is the one that [str] writes for its value. *)
Definition parse_int (s : string) : option Z :=
  match NilZero.int_of_string s with
  | Some d =>
      let z := Z.of_int d in
      if String.eqb (str_of_int z) s then Some z else None
  | None => None
  end.

(** The value of a digit of [\u00hh], written in lower case. *)
Definition hex_value (c : ascii) : option nat :=
  let n := nat_of_ascii c in
  if ((48 <=? n) && (n <=? 57))%nat then Some (n - 48)
  else if ((97 <=? n) && (n <=? 102))%nat then Some (n - 87)
  else None.

(** The character that a backslash and [e] stand for. *)
Definition unescape (e : ascii) : option ascii :=
  if Ascii.eqb e dquote then Some dquote
  else if Ascii.eqb e backslash then Some backslash
  else if Ascii.eqb e "n" then Some "010"%char
  else if Ascii.eqb e "r" then Some "013"%char
  else if Ascii.eqb e "t" then Some "009"%char
  else if Ascii.eqb e "b" then Some "008"%char
  else if Ascii.eqb e "f" then Some "012"%char
  else None.

(** The text after the opening quote of a string literal, up to the closing
    quote that ends the text. *)
Fixpoint parse_body (s : string) : option string :=
  match s with
  | EmptyString => None
  | String c s1 =>
      if Ascii.eqb c dquote then
        match s1 with
        | EmptyString => Some EmptyString
        | _ => None
        end
      else if Ascii.eqb c backslash then
        match s1 with
        | EmptyString => None
        | String e s2 =>
            if Ascii.eqb e "u" then
              match s2 with
              | String h1 (String h2 (String h3 (String h4 s3))) =>
                  match hex_value h1, hex_value h2,
                        hex_value h3, hex_value h4 with
                  | Some 0, Some 0, Some a, Some b =>
                      option_map (String (ascii_of_nat (16 * a + b)))
                        (parse_body s3)
                  | _, _, _, _ => None
                  end
              | _ => None
              end
            else
              match unescape e with
              | Some x => option_map (String x) (parse_body s2)
              | None => None
              end
        end
      else
        let n := nat_of_ascii c in
        if ((32 <=? n) && (n <=? 126))%nat
        then option_map (String c) (parse_body s1)
        else None
  end.

(** The names of JSON that are not literals of Python. *)
Definition json_names : list string :=
  ["true"; "false"; "null"; "NaN"; "Infinity"; "-Infinity"].

Definition literal_eval (s : string) : result value :=
  match parse_int s with
  | Some z => Ok (VInt z)
  | None =>
      match s with
      | String c body =>
          if Ascii.eqb c dquote then
            match parse_body body with
            | Some x => Ok (VStr x)
            | None => Raise SyntaxError
            end
          else if existsb (String.eqb s) json_names then Raise ValueError
          else Raise SyntaxError
      | EmptyString => Raise SyntaxError
      end
  end.

Definition json_loads (s : string) : result value :=
  if String.eqb s "true" then Ok (VBool true)
  else if String.eqb s "false" then Ok (VBool false)
  else if String.eqb s "null" then Ok VNone
  else if String.eqb s "NaN" then Ok (VFloat nan)
  else if String.eqb s "Infinity" then Ok (VFloat infinity)
  else if String.eqb s "-Infinity" then Ok (VFloat neg_infinity)
  else Raise ValueError.

Definition lib : pylib :=
  mk_pylib literal_eval json_loads CPython.float_repr (fun _ => None).

End Fragment.

(** * Properties *)

Unset Implicit Arguments.

(** ** Strings and the pattern *)

Lemma span_spec (p : ascii -> bool) (s : string) :
  let (run, after) := span p s in
  s = run ++ after
  /\ str_forall p run = true
  /\ match after with
     | EmptyString => True
     | String c _ => p c = false
     end.
Proof.
  induction s as [|a s IH]; simpl.
  - repeat split.
  - destruct (p a) eqn:Hpa.
    + destruct (span p s) as [run after]. destruct IH as (-> & Hrun & Hafter).
      simpl. rewrite Hpa, Hrun. repeat split. exact Hafter.
    + simpl. repeat split. exact Hpa.
Qed.

Lemma span_app (p : ascii -> bool) (run : string) (c : ascii) (s : string) :
  str_forall p run = true -> p c = false ->
  span p (run ++ String c s) = (run, String c s).
Proof.
  intros Hrun Hc. induction run as [|a run IH]; simpl in *.
  - now rewrite Hc.
  - apply andb_true_iff in Hrun as [Ha Hrun]. rewrite Ha, (IH Hrun). reflexivity.
Qed.

Lemma span_all (p : ascii -> bool) (run : string) :
  str_forall p run = true -> span p run = (run, EmptyString).
Proof.
  intros Hrun. induction run as [|a run IH]; simpl in *; [reflexivity|].
  apply andb_true_iff in Hrun as [Ha Hrun]. now rewrite Ha, (IH Hrun).
Qed.

Lemma match_unquoted_total (s : string) : exists m, match_unquoted s = Some m.
Proof.
  unfold match_unquoted. pose proof (span_spec (fun a => negb (Ascii.eqb a dot)) s) as H.
  destruct (span _ s) as [run after]. destruct H as (_ & _ & H).
  destruct after as [|c after]; simpl; [eauto|].
  apply negb_false_iff in H. rewrite H. eauto.
Qed.

(** The third alternative matches wherever the cursor is, so a match is
    always found at the cursor itself. *)
Lemma match_here_total (s : string) : exists m, match_here s = Some m.
Proof.
  unfold match_here.
  destruct (match_quoted squote s); [eauto|].
  destruct (match_quoted dquote s); [eauto|].
  apply match_unquoted_total.
Qed.

Lemma search_match (s : string) (m : re_match) :
  match_here s = Some m -> search s = Some (0, m).
Proof. intros H. destruct s; cbn [search]; now rewrite H. Qed.

Lemma search_here (s : string) : exists m, search s = Some (0, m).
Proof.
  destruct (match_here_total s) as [m Hm].
  exists m. now apply search_match.
Qed.

Lemma split_loop_returns (fuel : nat) :
  forall s acc, exists p, split_loop fuel s acc = Ok p.
Proof.
  induction fuel as [|fuel IH]; intros s acc; cbn [split_loop]; [eauto|].
  destruct (search_here s) as [m ->].
  destruct (rest m) as [|c r]; [eauto|].
  destruct (Nat.eqb _ _); apply IH.
Qed.

Lemma str_app_assoc (a b c : string) : (a ++ b) ++ c = a ++ (b ++ c).
Proof. induction a as [|x a IH]; simpl; [reflexivity | now rewrite IH]. Qed.

Lemma str_app_length (a b : string) :
  String.length (a ++ b) = String.length a + String.length b.
Proof. induction a as [|x a IH]; simpl; [reflexivity | now rewrite IH]. Qed.

Lemma contains_false_forall (c : ascii) (s : string) :
  contains c s = false -> str_forall (fun a => negb (Ascii.eqb a c)) s = true.
Proof.
  induction s as [|a s IH]; simpl; [reflexivity|].
  intros H. apply orb_false_iff in H as [Ha Hs]. now rewrite Ha, (IH Hs).
Qed.

(** ** Keys that survive the path codec *)

Definition quote_free (k : string) : bool :=
  negb (contains squote k) && negb (contains dquote k).

(** A character that [repr] writes as itself inside single quotes when it is
    not the quote. *)
Definition plain_char (c : ascii) : bool :=
  printable c && negb (Ascii.eqb c backslash).

(** No quote character in the key and, when the key has a dot and is
    therefore written through [repr], nothing that [repr] escapes. *)
Definition key_ok (k : string) : bool :=
  quote_free k && (negb (contains dot k) || str_forall plain_char k).

Lemma repr_char_plain (q c : ascii) :
  plain_char c = true -> Ascii.eqb c q = false ->
  repr_char q c = String c EmptyString.
Proof.
  unfold plain_char, repr_char. intros H Hq.
  apply andb_true_iff in H as [Hp Hb]. apply negb_true_iff in Hb.
  rewrite Hq, Hb, Hp. simpl.
  destruct (Ascii.eqb c "009") eqn:E1;
    [apply Ascii.eqb_eq in E1; subst c; discriminate Hp|].
  destruct (Ascii.eqb c "010") eqn:E2;
    [apply Ascii.eqb_eq in E2; subst c; discriminate Hp|].
  destruct (Ascii.eqb c "013") eqn:E3;
    [apply Ascii.eqb_eq in E3; subst c; discriminate Hp|].
  reflexivity.
Qed.

Lemma repr_body_plain (q : ascii) (k : string) :
  str_forall plain_char k = true -> contains q k = false ->
  repr_body q k = k.
Proof.
  induction k as [|c k IH]; simpl; [reflexivity|].
  intros H Hq. apply andb_true_iff in H as [Hc Hk].
  apply orb_false_iff in Hq as [Hcq Hkq].
  rewrite (repr_char_plain _ _ Hc Hcq), (IH Hk Hkq). reflexivity.
Qed.

Lemma join_key_quoted (k : string) :
  key_ok k = true -> contains dot k = true ->
  join_key k = String squote (k ++ String squote EmptyString).
Proof.
  unfold key_ok, quote_free, join_key. intros H Hd. rewrite Hd in *.
  apply andb_true_iff in H as [Hq Hp]. simpl in Hp.
  apply andb_true_iff in Hq as [Hs _]. apply negb_true_iff in Hs.
  unfold repr, repr_quote. rewrite Hs. simpl.
  now rewrite (repr_body_plain _ _ Hp Hs).
Qed.

Lemma match_quoted_not_quote (q : ascii) (k s : string) :
  contains q k = false -> Ascii.eqb dot q = false ->
  match_quoted q (k ++ String dot s) = None /\ match_quoted q k = None.
Proof.
  intros Hk Hd. destruct k as [|c k]; cbn [append match_quoted].
  - now rewrite Hd.
  - cbn [contains] in Hk. apply orb_false_iff in Hk as [-> _]. auto.
Qed.

(** A key followed by the separator is matched as that key, and the cursor
    moves past the separator. *)
Lemma match_here_key (k s : string) :
  key_ok k = true ->
  match_here (join_key k ++ String dot s) = Some (mk_match k s).
Proof.
  intros Hok. destruct (contains dot k) eqn:Hd.
  - rewrite (join_key_quoted _ Hok Hd). unfold match_here. cbn [append match_quoted].
    rewrite Ascii.eqb_refl, str_app_assoc. cbn [append].
    unfold key_ok, quote_free in Hok.
    apply andb_true_iff in Hok as [Hq _]. apply andb_true_iff in Hq as [Hs _].
    apply negb_true_iff in Hs.
    rewrite span_app;
      [| now apply contains_false_forall | now rewrite Ascii.eqb_refl].
    reflexivity.
  - unfold join_key. rewrite Hd. unfold key_ok, quote_free in Hok.
    apply andb_true_iff in Hok as [Hq _]. apply andb_true_iff in Hq as [Hs Hdq].
    apply negb_true_iff in Hs. apply negb_true_iff in Hdq.
    unfold match_here.
    destruct (match_quoted_not_quote _ k s Hs eq_refl) as [-> _].
    destruct (match_quoted_not_quote _ k s Hdq eq_refl) as [-> _].
    unfold match_unquoted.
    rewrite span_app;
      [| now apply contains_false_forall | now rewrite Ascii.eqb_refl].
    reflexivity.
Qed.

(** The last key is matched up to the end of the text. *)
Lemma match_here_key_end (k : string) :
  key_ok k = true ->
  match_here (join_key k) = Some (mk_match k EmptyString).
Proof.
  intros Hok. destruct (contains dot k) eqn:Hd.
  - rewrite (join_key_quoted _ Hok Hd). unfold match_here. cbn [match_quoted].
    rewrite Ascii.eqb_refl.
    unfold key_ok, quote_free in Hok.
    apply andb_true_iff in Hok as [Hq _]. apply andb_true_iff in Hq as [Hs _].
    apply negb_true_iff in Hs.
    rewrite span_app;
      [| now apply contains_false_forall | now rewrite Ascii.eqb_refl].
    reflexivity.
  - unfold join_key. rewrite Hd. unfold key_ok, quote_free in Hok.
    apply andb_true_iff in Hok as [Hq _]. apply andb_true_iff in Hq as [Hs Hdq].
    apply negb_true_iff in Hs. apply negb_true_iff in Hdq.
    unfold match_here.
    destruct (match_quoted_not_quote _ k EmptyString Hs eq_refl) as [_ ->].
    destruct (match_quoted_not_quote _ k EmptyString Hdq eq_refl) as [_ ->].
    unfold match_unquoted.
    rewrite span_all; [reflexivity | now apply contains_false_forall].
Qed.

Lemma join_key_empty (k : string) : join_key k = EmptyString -> k = EmptyString.
Proof.
  unfold join_key, repr. destruct (contains dot k); [discriminate | auto].
Qed.

Lemma join_path_cons (k k' : string) (p : list string) :
  join_path (k :: k' :: p) = join_key k ++ String dot (join_path (k' :: p)).
Proof. reflexivity. Qed.

Lemma join_path_empty (p : list string) :
  p <> [] -> join_path p = EmptyString -> p = [EmptyString].
Proof.
  destruct p as [|k [|k' p]]; intros Hne H; [contradiction | |].
  - apply join_key_empty in H. now subst.
  - rewrite join_path_cons in H. destruct (join_key k); discriminate.
Qed.

(** The condition on the end of a path: a path of several keys does not end
    with the empty key. *)
Definition ends_well (p : list string) : Prop :=
  length p = 1 \/ last p "x" <> EmptyString.

Lemma ends_well_tail (k k' : string) (p : list string) :
  ends_well (k :: k' :: p) ->
  ends_well (k' :: p) /\ join_path (k' :: p) <> EmptyString.
Proof.
  intros [H | H]; [discriminate|]. split.
  - right. exact H.
  - intros E. apply join_path_empty in E; [|discriminate].
    injection E as -> ->. apply H. reflexivity.
Qed.

Lemma split_loop_join (p : list string) :
  forall fuel acc,
    p <> [] -> Forall (fun k => key_ok k = true) p -> ends_well p ->
    String.length (join_path p) < fuel ->
    split_loop fuel (join_path p) acc = Ok (acc ++ p)%list.
Proof.
  induction p as [|k p IH]; intros fuel acc Hne Hok Hend Hfuel; [contradiction|].
  destruct fuel as [|fuel]; [lia|].
  inversion Hok as [|? ? Hk Hp]; subst.
  destruct p as [|k' p].
  - cbn [split_loop]. change (join_path [k]) with (join_key k).
    assert (Hs : search (join_key k) = Some (0, mk_match k EmptyString)).
    { apply search_match, match_here_key_end, Hk. }
    rewrite Hs. reflexivity.
  - destruct (ends_well_tail _ _ _ Hend) as [Hend' Hrest].
    rewrite join_path_cons in *.
    rewrite str_app_length in Hfuel. cbn [String.length] in Hfuel.
    assert (IH' := IH fuel (acc ++ [k])%list ltac:(discriminate) Hp Hend'
                     ltac:(lia)).
    cbn [split_loop].
    rewrite (search_match _ _ (match_here_key k _ Hk)). cbn [rest grp].
    destruct (join_path (k' :: p)) as [|c r'] eqn:Er; [contradiction|].
    rewrite (proj2 (Nat.eqb_neq _ _));
      [| rewrite str_app_length; cbn [String.length]; lia].
    rewrite IH'. now rewrite <- app_assoc.
Qed.

(** ** PathCodec: the round trip (C3) *)

(** C3, as amended. For every non-empty path whose keys have no quote
    character, whose keys that contain a dot consist of printable characters
    other than the backslash, and which, when it has several keys, does not
    end with the empty key, [split_path (join_path p)] returns [p]. *)
Theorem split_join_round_trip (p : list string) :
  p <> [] ->
  Forall (fun k => key_ok k = true) p ->
  ends_well p ->
  split_path (join_path p) = Ok p.
Proof.
  intros Hne Hok Hend. unfold split_path.
  now rewrite (split_loop_join p _ [] Hne Hok Hend (Nat.lt_succ_diag_r _)).
Qed.

Lemma split_join_round_trip_witness :
  (["a.b"; ""; "c"] <> [] /\ ends_well ["a.b"; ""; "c"])
  /\ split_path (join_path ["a.b"; ""; "c"]) = Ok ["a.b"; ""; "c"].
Proof.
  assert (Hne : ["a.b"; ""; "c"] <> []) by discriminate.
  assert (Hend : ends_well ["a.b"; ""; "c"]) by (right; discriminate).
  split; [split; assumption|].
  apply (split_join_round_trip ["a.b"; ""; "c"] Hne); [|exact Hend].
  repeat constructor.
Defined.

(** C3 as it is stated fails: the keys of [["a"; ""]] have no quote
    character, and the path comes back without its last key. *)
Lemma split_join_trailing_empty_key :
  ["a"; ""] <> []
  /\ Forall (fun k => quote_free k = true) ["a"; ""]
  /\ join_path ["a"; ""] = "a."
  /\ split_path (join_path ["a"; ""]) = Ok ["a"]
  /\ split_path (join_path ["a"; ""]) <> Ok ["a"; ""].
Proof.
  split; [discriminate|]. split; [repeat constructor|].
  split; [reflexivity|]. split; [reflexivity | discriminate].
Qed.

(** A key with a dot and a backslash is not recovered either: [repr] doubles
    the backslash and [split_path] takes the text between the quotes as it
    is. *)
Example split_join_backslash :
  join_path ["a\.b"] = "'a\\.b'"
  /\ split_path (join_path ["a\.b"]) = Ok ["a\\.b"].
Proof. split; reflexivity. Qed.

(** ** PathCodec: malformed names (C5) *)

(** C5. The claim is right and the code falls short of it. The assertion
    of [split_path] is there to reject a malformed name, but the run without
    dot of the pattern also matches a run that opens with a quote character,
    so a match always starts at the cursor and the assertion cannot fail: a
    quoted run that is followed by neither a dot nor the end, and a quote
    that is never closed, are taken as keys without quotes, and no name at
    all is rejected. *)
Theorem split_path_accepts_malformed :
  split_path "'a'b" = Ok ["'a'b"]
  /\ split_path "'a.b'c" = Ok ["'a"; "b'c"]
  /\ split_path "'a" = Ok ["'a"]
  /\ forall name, split_path name <> Raise AssertionError.
Proof.
  split; [reflexivity|]. split; [reflexivity|]. split; [reflexivity|].
  intros name. unfold split_path.
  destruct (split_loop_returns (S (String.length name)) name []) as [p ->].
  discriminate.
Qed.

(** The pattern itself has a match at the head of every text. *)
Lemma pattern_matches_everywhere (s : string) : match_here s <> None.
Proof. destruct (match_here_total s) as [m ->]. discriminate. Qed.

(** Names on which the three alternatives and [$] show: a quoted run that
    is not followed by a dot is given up for the run without dot, and [$]
    matches before the newline that ends the name. *)
Example split_path_examples :
  split_path "'a.b'.c" = Ok ["a.b"; "c"]
  /\ split_path "'a.b'c" = Ok ["'a"; "b'c"]
  /\ split_path "'a'b" = Ok ["'a'b"]
  /\ split_path "a..b" = Ok ["a"; ""; "b"]
  /\ split_path ".a" = Ok [""; "a"]
  /\ split_path "" = Ok [""]
  /\ split_path (CPython.quoted "x.y" ++ ".z") = Ok ["x.y"; "z"]
  /\ split_path ("'a'" ++ String newline "")
     = Ok ["a"; String newline ""].
Proof. repeat split. Qed.

(** Separator escaping: a key with a dot, made of plain characters, is
    written between single quotes and read back as one key. *)
Theorem separator_escaping (k : string) :
  key_ok k = true ->
  contains dot k = true ->
  join_path [k] = String squote (k ++ String squote "")
  /\ split_path (join_path [k]) = Ok [k].
Proof.
  intros Hok Hdot. split.
  - exact (join_key_quoted k Hok Hdot).
  - unfold split_path. apply (split_loop_join [k] _ []).
    + discriminate.
    + now constructor.
    + now left.
    + apply Nat.lt_succ_diag_r.
Qed.

Lemma separator_escaping_witness :
  join_path ["a.b"] = "'a.b'" /\ split_path (join_path ["a.b"]) = Ok ["a.b"].
Proof. apply (separator_escaping "a.b"); reflexivity. Defined.

(** ** ValueCodec: totality of decoding (C6) *)

(** When [literal_eval] raises nothing but [ValueError] and [SyntaxError]
    and [json.loads] nothing but [ValueError], decoding returns, and it
    returns the text itself when both grammars fail. *)
Definition caught_by_first (r : result value) : Prop :=
  match r with
  | Ok _ | Raise ValueError | Raise SyntaxError => True
  | Raise _ => False
  end.

Definition caught_by_second (r : result value) : Prop :=
  match r with
  | Ok _ | Raise ValueError => True
  | Raise _ => False
  end.

(** Decoding returns on every text on which the two grammars raise nothing
    but what is caught. *)
Theorem config_literal_eval_returns (L : pylib) (s : string) :
  caught_by_first (literal_eval L s) ->
  caught_by_second (json_loads L s) ->
  exists v, config_literal_eval L s = Ok v.
Proof.
  unfold config_literal_eval. intros H1 H2.
  destruct (literal_eval L s) as [v|[]]; try contradiction; eauto;
    destruct (json_loads L s) as [v|[]]; try contradiction; eauto.
Qed.

Lemma config_literal_eval_returns_witness :
  config_literal_eval CPython.lib "hello" = Ok (VStr "hello")
  /\ exists v, config_literal_eval CPython.lib "hello" = Ok v.
Proof.
  split; [reflexivity|].
  apply (config_literal_eval_returns CPython.lib "hello"); exact I.
Defined.

Lemma config_literal_eval_fallback (L : pylib) (s : string) :
  literal_eval L s = Raise ValueError \/ literal_eval L s = Raise SyntaxError ->
  json_loads L s = Raise ValueError ->
  config_literal_eval L s = Ok (VStr s).
Proof.
  unfold config_literal_eval. intros [-> | ->] ->; reflexivity.
Qed.

(** C6. The claim is right and the code falls short of it: [literal_eval]
    raises [TypeError] on the display of a dict whose key is a list, and
    [config_literal_eval] lets it through. *)
Theorem config_literal_eval_type_error :
  config_literal_eval CPython.lib "{[]: 1}" = Raise TypeError.
Proof. reflexivity. Qed.

(** ** ValueCodec: the scalar round trip (C2) *)




















(** The scalars of the concrete scenario of the specification: the integer
    [1] is written bare and the string of the digit [1] in quotes. *)
Example dump_int_and_digit_string :
  config_literal_dump CPython.lib (VInt 1) = Ok "1"
  /\ config_literal_dump CPython.lib (VStr "1") = Ok (CPython.quoted "1")
  /\ config_literal_eval CPython.lib (CPython.quoted "1") = Ok (VStr "1")
  /\ config_literal_dump CPython.lib (VStr "hello") = Ok "hello"
  /\ config_literal_dump CPython.lib (VBool true) = Ok "true"
  /\ config_literal_eval CPython.lib "true" = Ok (VBool true)
  /\ config_literal_dump CPython.lib VNone = Ok "null"
  /\ config_literal_eval CPython.lib "null" = Ok VNone.
Proof. repeat split. Qed.

(** ** Dictionaries *)

Section DictFacts.
Variable V : Type.
Implicit Types (d e : dict V) (k : string) (v : V).

Lemma dict_get_none k d : dict_get k d = None <-> ~ In k (dict_keys d).
Proof.
  induction d as [|[k' v'] d IH]; cbn; [tauto|].
  destruct (String.eqb_spec k' k) as [->|Hne].
  - split; [discriminate | intros H; exfalso; apply H; now left].
  - rewrite IH. split; [intros H [E|I]; [contradiction | auto] | tauto].
Qed.

Lemma dict_get_some_in k v d : dict_get k d = Some v -> In (k, v) d.
Proof.
  induction d as [|[k' v'] d IH]; cbn; [discriminate|].
  destruct (String.eqb_spec k' k) as [->|Hne].
  - intros [= ->]. now left.
  - intros H. right. auto.
Qed.

Lemma dict_mem_false k d : dict_mem k d = false <-> ~ In k (dict_keys d).
Proof.
  unfold dict_mem. rewrite <- dict_get_none.
  destruct (dict_get k d); split; congruence.
Qed.

Lemma dict_get_app k d e :
  dict_get k (d ++ e)%list
  = match dict_get k d with Some v => Some v | None => dict_get k e end.
Proof.
  induction d as [|[k' v'] d IH]; cbn; [reflexivity|].
  now destruct (String.eqb k' k).
Qed.

Lemma dict_get_in k v d :
  NoDup (dict_keys d) -> In (k, v) d -> dict_get k d = Some v.
Proof.
  induction d as [|[k' v'] d IH]; cbn; [contradiction|].
  intros Hnd [E|I]; inversion Hnd as [|? ? Hk Hd]; subst.
  - injection E as -> ->. now rewrite String.eqb_refl.
  - destruct (String.eqb_spec k' k) as [->|Hne]; [|auto].
    exfalso. apply Hk. now apply (in_map fst) in I.
Qed.

(** Setting a key that is not bound appends the binding. *)
Lemma dict_set_new k v d :
  ~ In k (dict_keys d) -> dict_set k v d = (d ++ [(k, v)])%list.
Proof.
  induction d as [|[k' v'] d IH]; cbn; [reflexivity|].
  intros H. destruct (String.eqb_spec k' k) as [->|Hne]; [tauto|].
  rewrite IH; tauto.
Qed.

(** Setting a bound key replaces its value where it stands. *)
Lemma dict_set_mid k v v0 d e :
  ~ In k (dict_keys d) ->
  dict_set k v (d ++ (k, v0) :: e)%list = (d ++ (k, v) :: e)%list.
Proof.
  induction d as [|[k' v'] d IH]; cbn.
  - now rewrite String.eqb_refl.
  - intros H. destruct (String.eqb_spec k' k) as [->|Hne]; [tauto|].
    rewrite IH; tauto.
Qed.

Lemma dict_set_keys k v d :
  dict_keys (dict_set k v d)
  = if dict_mem k d then dict_keys d else (dict_keys d ++ [k])%list.
Proof.
  unfold dict_mem, dict_keys.
  induction d as [|[k' v'] d IH]; cbn; [reflexivity|].
  destruct (String.eqb_spec k' k) as [->|Hne]; cbn; [reflexivity|].
  rewrite IH. now destruct (dict_get k d).
Qed.

Lemma dict_set_NoDup k v d :
  NoDup (dict_keys d) -> NoDup (dict_keys (dict_set k v d)).
Proof.
  intros H. rewrite dict_set_keys. destruct (dict_mem k d) eqn:E; [exact H|].
  apply dict_mem_false in E. apply NoDup_app; [exact H | repeat constructor; tauto |].
  intros x Hx [<-|[]]. contradiction.
Qed.

Lemma dict_get_set_same k v d : dict_get k (dict_set k v d) = Some v.
Proof.
  induction d as [|[k' v'] d IH]; cbn.
  - now rewrite String.eqb_refl.
  - destruct (String.eqb_spec k' k) as [->|Hne]; cbn.
    + now rewrite String.eqb_refl.
    + destruct (String.eqb_spec k' k); [contradiction | exact IH].
Qed.

Lemma dict_get_set_other k k' v d :
  k' <> k -> dict_get k' (dict_set k v d) = dict_get k' d.
Proof.
  intros Hne. induction d as [|[k0 v0] d IH]; cbn.
  - destruct (String.eqb_spec k k'); [congruence | reflexivity].
  - destruct (String.eqb_spec k0 k) as [->|Hne0]; cbn.
    + destruct (String.eqb_spec k k'); [congruence | reflexivity].
    + now rewrite IH.
Qed.

(** Updating with a dictionary of new, distinct keys appends it. *)
Lemma dict_update_new d e :
  NoDup (dict_keys e) ->
  (forall k, In k (dict_keys e) -> ~ In k (dict_keys d)) ->
  dict_update d e = (d ++ e)%list.
Proof.
  unfold dict_update. revert d.
  induction e as [|[k v] e IH]; intros d Hnd Hdisj; cbn.
  - now rewrite app_nil_r.
  - inversion Hnd as [|? ? Hk He]; subst.
    rewrite dict_set_new by (apply Hdisj; now left).
    rewrite IH; [now rewrite <- app_assoc | exact He |].
    intros k' Hk' Hin. unfold dict_keys in Hin. rewrite map_app in Hin.
    apply in_app_or in Hin as [Hin|[<-|[]]].
    + apply (Hdisj k'); [now right | exact Hin].
    + contradiction.
Qed.

Lemma dict_update_nil e : NoDup (dict_keys e) -> dict_update [] e = e.
Proof. intros H. now rewrite dict_update_new. Qed.

Lemma dict_pop_set k v d : dict_pop k (dict_set k v d) = dict_pop k d.
Proof.
  induction d as [|[k' v'] d IH]; cbn.
  - now rewrite String.eqb_refl.
  - destruct (String.eqb_spec k' k) as [->|Hne]; cbn.
    + now rewrite String.eqb_refl.
    + destruct (String.eqb_spec k' k); [contradiction | now rewrite IH].
Qed.

Lemma dict_get_pop_same k d :
  NoDup (dict_keys d) -> dict_get k (dict_pop k d) = None.
Proof.
  induction d as [|[k' v'] d IH]; cbn; [reflexivity|].
  intros Hnd. inversion Hnd as [|? ? Hk Hd]; subst.
  destruct (String.eqb_spec k' k) as [->|Hne]; cbn.
  - now apply dict_get_none.
  - destruct (String.eqb_spec k' k); [contradiction | auto].
Qed.

Lemma dict_pop_head k v d : dict_pop k ((k, v) :: d) = d.
Proof. cbn. now rewrite String.eqb_refl. Qed.
End DictFacts.

(** ** Induction on trees *)

Section TreeInd.
Variable P : value -> Prop.
Hypothesis Hleaf : forall v, is_dict v = false -> P v.
Hypothesis Hnode :
  forall d, Forall (fun kv => P (snd kv)) d -> P (VDict d).

Fixpoint tree_ind (v : value) : P v :=
  match v with
  | VDict d =>
      Hnode d
        ((fix all (d : list (string * value))
            : Forall (fun kv => P (snd kv)) d :=
            match d with
            | [] => Forall_nil _
            | kv :: d' => Forall_cons kv (tree_ind (snd kv)) (all d')
            end) d)
  | VNone => Hleaf VNone eq_refl
  | VBool b => Hleaf (VBool b) eq_refl
  | VInt z => Hleaf (VInt z) eq_refl
  | VFloat f => Hleaf (VFloat f) eq_refl
  | VStr s => Hleaf (VStr s) eq_refl
  | VList l => Hleaf (VList l) eq_refl
  | VTuple l => Hleaf (VTuple l) eq_refl
  | VSet l => Hleaf (VSet l) eq_refl
  end.
End TreeInd.

(** ** TreeFlattener *)

(** The entries of a node that are not nested trees, and those that are. *)
Definition leaves (d : tree) : dict value :=
  filter (fun kv => negb (is_dict (snd kv))) d.

Definition subtrees (d : tree) : tree :=
  filter (fun kv => is_dict (snd kv)) d.

(** The sections of the nodes below a node, child after child. *)
Definition preorder_children
    (preorder : value -> list string -> section_map) (path : list string)
  : list (string * value) -> section_map :=
  fix go (d : list (string * value)) : section_map :=
    match d with
    | [] => []
    | (k, v) :: d' =>
        ((if is_dict v then preorder v (path ++ [k])%list else []) ++ go d')%list
    end.

(** One section per node, keyed by the encoded path and holding the leaves
    of the node, every node before its descendants. *)
Fixpoint preorder (node : value) (path : list string) : section_map :=
  match node with
  | VDict d => (join_path path, leaves d) :: preorder_children preorder path d
  | _ => []
  end.

(** Every dict of the tree binds a key once, as a Python dict does. *)
Fixpoint wf_tree (v : value) : Prop :=
  match v with
  | VDict d =>
      NoDup (dict_keys d)
      /\ (fix all (d : list (string * value)) : Prop :=
            match d with
            | [] => True
            | (_, x) :: d' => wf_tree x /\ all d'
            end) d
  | _ => True
  end.

Lemma wf_tree_children (d : tree) :
  wf_tree (VDict d) -> Forall (fun kv => wf_tree (snd kv)) d.
Proof.
  intros [_ H]. induction d as [|[k x] d IH]; constructor.
  - apply H.
  - apply IH, H.
Qed.

Lemma leaves_keys_NoDup (d : tree) :
  NoDup (dict_keys d) -> NoDup (dict_keys (leaves d)).
Proof.
  unfold leaves, dict_keys. induction d as [|[k v] d IH]; cbn; [auto|].
  intros H. inversion H as [|? ? Hk Hd]; subst.
  destruct (negb (is_dict v)); cbn; [|auto].
  constructor; [|auto]. intros Hin. apply Hk.
  apply in_map_iff in Hin as ([k' v'] & E & Hin). cbn in E. subst k'.
  apply filter_In in Hin as [Hin _]. now apply (in_map fst) in Hin.
Qed.

(** The loop of [rec] leaves in [res] what the nested trees put there: the
    scalar entries only reach [section]. *)
Lemma rec_loop_res_subtrees (path : list string) (d : tree) :
  forall res sec sec',
    fst (rec_loop rec path d res sec)
    = fst (rec_loop rec path (subtrees d) res sec').
Proof.
  unfold subtrees. induction d as [|[k v] d IH]; intros res sec sec'; cbn.
  - reflexivity.
  - destruct (is_dict v) eqn:E; cbn; [rewrite E|]; apply IH.
Qed.

Lemma flatten_sections_unfold (t : tree) :
  flatten_sections t = dict_pop "" (fst (rec_loop rec [] t [("", [])] [])).
Proof.
  unfold flatten_sections. cbn [rec].
  change (join_path []) with "". change (dict_setdefault "" [] []) with [("", @nil (string * value))].
  destruct (rec_loop rec [] t [("", [])] []) as [res2 section]. cbn [fst].
  apply dict_pop_set.
Qed.

Lemma dict_setdefault_new (V : Type) (k : string) (v : V) (d : dict V) :
  ~ In k (dict_keys d) -> dict_setdefault k v d = (d ++ [(k, v)])%list.
Proof.
  intros H. unfold dict_setdefault.
  rewrite (proj2 (dict_mem_false V k d) H). now apply dict_set_new.
Qed.

Lemma dict_get_fresh (V : Type) (k : string) (d : dict V) :
  ~ In k (dict_keys d) -> dict_get k d = None.
Proof. apply dict_get_none. Qed.

Lemma dict_setdefault_NoDup (V : Type) (k : string) (v : V) (d : dict V) :
  NoDup (dict_keys d) -> NoDup (dict_keys (dict_setdefault k v d)).
Proof.
  intros H. unfold dict_setdefault. destruct (dict_mem k d); [exact H|].
  now apply dict_set_NoDup.
Qed.

Lemma rec_loop_NoDup (path : list string) (d : tree) :
  Forall (fun kv => forall path res,
            NoDup (dict_keys res) -> NoDup (dict_keys (rec (snd kv) path res))) d ->
  forall res sec,
    NoDup (dict_keys res) ->
    NoDup (dict_keys (fst (rec_loop rec path d res sec))).
Proof.
  induction 1 as [|[k v] d Hv Hd IH]; intros res sec Hres; cbn; [exact Hres|].
  destruct (is_dict v); apply IH; [|exact Hres]. now apply Hv.
Qed.

(** The keys of the accumulated sections stay distinct. *)
Lemma rec_NoDup (v : value) :
  forall path res,
    NoDup (dict_keys res) -> NoDup (dict_keys (rec v path res)).
Proof.
  induction v as [v Hv | d IH] using tree_ind; intros path res Hres.
  - destruct v; try discriminate Hv; exact Hres.
  - cbn [rec].
    pose proof (rec_loop_NoDup path d IH
                  (dict_setdefault (join_path path) [] res) []
                  (dict_setdefault_NoDup _ _ _ _ Hres)) as H.
    destruct (rec_loop rec path d _ []) as [res2 section]. cbn [fst] in H.
    now apply dict_set_NoDup.
Qed.

(** With distinct names, the loop appends the sections of the children. *)
Lemma rec_loop_spec (path : list string) (d : tree) :
  Forall (fun kv => forall path res,
            wf_tree (snd kv) ->
            NoDup (dict_keys res ++ dict_keys (preorder (snd kv) path)) ->
            rec (snd kv) path res = (res ++ preorder (snd kv) path)%list) d ->
  Forall (fun kv => wf_tree (snd kv)) d ->
  forall res sec,
    NoDup (dict_keys res ++ dict_keys (preorder_children preorder path d)) ->
    rec_loop rec path d res sec
    = ((res ++ preorder_children preorder path d)%list,
       dict_update sec (leaves d)).
Proof.
  induction 1 as [|[k v] d Hv Hd IH]; intros Hwf res sec Hnd; cbn.
  - now rewrite app_nil_r.
  - inversion Hwf as [|? ? Hwv Hwd]; subst. cbn [snd] in *.
    cbn [preorder_children] in Hnd.
    destruct (is_dict v) eqn:E; cbn [negb].
    + unfold dict_keys in Hnd. rewrite map_app, app_assoc in Hnd.
      rewrite Hv; [| exact Hwv | exact (NoDup_app_remove_r _ _ Hnd)].
      rewrite IH; [now rewrite <- app_assoc | exact Hwd |].
      unfold dict_keys. now rewrite map_app.
    + cbn [app] in *. now rewrite IH.
Qed.

(** With distinct names, [rec] appends the sections of the node and of the
    nodes below it. *)
Lemma rec_spec (v : value) :
  forall path res,
    wf_tree v ->
    NoDup (dict_keys res ++ dict_keys (preorder v path)) ->
    rec v path res = (res ++ preorder v path)%list.
Proof.
  induction v as [v Hv | d IH] using tree_ind; intros path res Hwf Hnd.
  - destruct v; try discriminate Hv; cbn; now rewrite app_nil_r.
  - cbn [rec preorder] in *.
    set (name := join_path path) in *.
    set (ch := preorder_children preorder path d) in *.
    assert (Hname : ~ In name (dict_keys res)).
    { intros Hin. apply NoDup_remove_2 in Hnd. apply Hnd.
      apply in_or_app. now left. }
    rewrite dict_setdefault_new by exact Hname.
    rewrite (rec_loop_spec path d IH (wf_tree_children d Hwf)).
    2:{ fold ch. unfold dict_keys in *. rewrite map_app, <- app_assoc. exact Hnd. }
    fold ch. unfold res_get.
    rewrite <- app_assoc. cbn [app].
    rewrite dict_get_app, dict_get_fresh by exact Hname.
    cbn [dict_get]. rewrite String.eqb_refl.
    rewrite dict_set_mid by exact Hname.
    destruct Hwf as [Hkeys _].
    pose proof (leaves_keys_NoDup d Hkeys) as Hl.
    now rewrite !dict_update_nil by (rewrite ?dict_update_nil; exact Hl).
Qed.

(** *** Section emission (C9) *)

Lemma flatten_sections_spec (t : tree) :
  wf_tree (VDict t) ->
  NoDup (dict_keys (preorder (VDict t) [])) ->
  flatten_sections t = preorder_children preorder [] t.
Proof.
  intros Hwf Hnd. unfold flatten_sections.
  rewrite (rec_spec (VDict t) [] [] Hwf Hnd).
  cbn [app preorder]. apply dict_pop_head.
Qed.

(** C9, as amended. For every tree whose nodes have pairwise distinct
    encoded paths, [flatten_sections] emits the sections of the non-root
    nodes and nothing else: one section per node, keyed by the encoded path,
    holding the leaf entries of that node (none, for a node without leaves),
    a node before its descendants; the section of the root is not emitted. *)
Theorem flatten_sections_preorder (t : tree) :
  wf_tree (VDict t) ->
  NoDup (dict_keys (preorder (VDict t) [])) ->
  flatten_sections t = tl (preorder (VDict t) []).
Proof.
  intros Hwf Hnd. now rewrite (flatten_sections_spec t Hwf Hnd).
Qed.

Definition sample_tree : tree :=
  [ ("a", VDict [ ("x", VInt 1);
                  ("b", VDict [("y", VInt 2)]);
                  ("z", VInt 3) ]);
    ("e", VDict []);
    ("c.d", VDict [("w", VStr "1")]) ].

Lemma flatten_sections_preorder_witness :
  flatten_sections sample_tree
  = [ ("a", [("x", VInt 1); ("z", VInt 3)]);
      ("a.b", [("y", VInt 2)]);
      ("e", []);
      ("'c.d'", [("w", VStr "1")]) ]
  /\ flatten_sections sample_tree = tl (preorder (VDict sample_tree) []).
Proof.
  split; [reflexivity|].
  apply (flatten_sections_preorder sample_tree).
  - cbn. repeat split; repeat constructor; cbn; intuition discriminate.
  - cbn. repeat constructor; cbn; intuition discriminate.
Defined.

(** C9 as it is stated fails: the node under the empty key is not the root,
    its encoded path is the empty name of the root, and no section is
    emitted for it. *)
Lemma flatten_sections_empty_key :
  join_path [""] = join_path []
  /\ tl (preorder (VDict [("", VDict [("x", VInt 1)])]) [])
     = [("", [("x", VInt 1)])]
  /\ flatten_sections [("", VDict [("x", VInt 1)])] = [].
Proof. repeat split. Qed.

(** *** Scalars of the root (C7) *)

(** C7. The section of the root never comes out, and the output is the one
    of the tree without the scalar entries of its root, so these entries do
    not reach the document that [_dump] writes. *)
Theorem root_scalars_dropped (L : pylib) (t : tree) :
  dict_get "" (flatten_sections t) = None
  /\ flatten_sections t = flatten_sections (subtrees t)
  /\ _dump L t = _dump L (subtrees t).
Proof.
  assert (He : flatten_sections t = flatten_sections (subtrees t)).
  { rewrite !flatten_sections_unfold.
    now rewrite (rec_loop_res_subtrees [] t [("", [])] [] []). }
  split; [| split; [exact He | unfold _dump; now rewrite He]].
  unfold flatten_sections. apply dict_get_pop_same, rec_NoDup. constructor.
Qed.

Example root_scalar_example :
  flatten_sections [("a", VInt 1)] = []
  /\ flatten_sections [("a", VInt 1); ("b", VDict [("c", VInt 2)])]
     = [("b", [("c", VInt 2)])].
Proof. split; reflexivity. Qed.

(** ** TreeBuilder *)

(** The value found by following [path] from [v] through nested dicts. *)
Fixpoint get_path (v : value) (path : list string) : option value :=
  match path with
  | [] => Some v
  | k :: path' =>
      match v with
      | VDict d =>
          match dict_get k d with
          | Some c => get_path c path'
          | None => None
          end
      | _ => None
      end
  end.

Lemma get_path_app (path q : list string) :
  forall v w, get_path v path = Some w ->
              get_path v (path ++ q) = get_path w q.
Proof.
  induction path as [|k path IH]; intros v w H; cbn in *.
  - now injection H as ->.
  - destruct v; try discriminate. destruct (dict_get k d); [auto | discriminate].
Qed.

Lemma build_app (L : pylib) (p : parser) (a b : list string) :
  forall c, build L p (a ++ b) c = (c' <- build L p a c ;; build L p b c').
Proof.
  induction a as [|n a IH]; intros c; cbn [app build]; [reflexivity|].
  destruct (split_path n) as [parts|e]; cbn [bind]; [|reflexivity].
  destruct (walk L parts c (items p n)) as [c'|e]; cbn [bind];
    [apply IH | reflexivity].
Qed.

(** *** Structural conflicts (C4) *)

Definition is_set (v : value) : bool :=
  match v with VSet _ => true | _ => false end.

(** The walk stops with [TypeError] at a value that is not a dict when
    segments are left to walk. *)
Lemma walk_conflict_inside (L : pylib) (its : dict string) (prefix : list string) :
  forall current v k rest,
    get_path current prefix = Some v -> is_dict v = false ->
    walk L (prefix ++ k :: rest) current its = Raise TypeError.
Proof.
  induction prefix as [|s prefix IH]; intros current v k rest Hget Hv; cbn in *.
  - injection Hget as ->. destruct v; try discriminate Hv; reflexivity.
  - destruct current; try discriminate Hget.
    destruct (dict_get s d) as [c|]; [|discriminate Hget].
    now rewrite (IH c v k rest Hget Hv).
Qed.

(** At the end of the path, a value that is neither a dict nor a set has no
    [update]. *)
Lemma walk_conflict_end (L : pylib) (its : dict string) (path : list string) :
  forall current v,
    get_path current path = Some v -> is_dict v = false -> is_set v = false ->
    walk L path current its = Raise AttributeError.
Proof.
  induction path as [|s path IH]; intros current v Hget Hv Hs; cbn in *.
  - injection Hget as ->.
    destruct v; try discriminate Hv; try discriminate Hs; reflexivity.
  - destruct current; try discriminate Hget.
    destruct (dict_get s d) as [c|]; [|discriminate Hget].
    now rewrite (IH c v Hget Hv Hs).
Qed.

(** C4, as amended. When the sections processed so far have built a tree in
    which a prefix of the path of the next section leads to a value that is
    not a dict, the build fails: with [TypeError] when segments are left to
    walk, with [AttributeError] when the path ends there and the value is
    not a set. *)
Theorem build_structural_conflict
    (L : pylib) (p : parser) (done todo : list string) (section : string)
    (config v : value) (prefix rest : list string) :
  build L p done (VDict []) = Ok config ->
  split_path section = Ok (prefix ++ rest)%list ->
  get_path config prefix = Some v ->
  is_dict v = false ->
  (rest = [] -> is_set v = false) ->
  build L p (done ++ section :: todo) (VDict [])
  = Raise (match rest with [] => AttributeError | _ => TypeError end).
Proof.
  intros Hdone Hsplit Hget Hv Hs.
  rewrite build_app, Hdone. cbn [bind build]. rewrite Hsplit. cbn [bind].
  destruct rest as [|k rest].
  - rewrite app_nil_r in *.
    now rewrite (walk_conflict_end L _ prefix config v Hget Hv (Hs eq_refl)).
  - now rewrite (walk_conflict_inside L _ prefix config v k rest Hget Hv).
Qed.

Definition conflict_parser : parser :=
  mk_parser [] [("a", [("b", "1")]); ("a.b", [("c", "2")])].

Lemma build_structural_conflict_witness :
  build CPython.lib conflict_parser (sections conflict_parser) (VDict [])
  = Raise AttributeError
  /\ parse_config CPython.lib (cp_write conflict_parser) = Raise AttributeError.
Proof.
  assert (H : build CPython.lib conflict_parser (sections conflict_parser)
                (VDict []) = Raise AttributeError).
  { apply (build_structural_conflict CPython.lib conflict_parser
             ["a"] [] "a.b" (VDict [("a", VDict [("b", VInt 1)])]) (VInt 1)
             ["a"; "b"] []).
    - reflexivity.
    - reflexivity.
    - reflexivity.
    - reflexivity.
    - reflexivity. }
  split; [exact H | reflexivity].
Defined.

(** C4 as it is stated fails: [b] is bound to a set under [a], the next
    section walks [a.b], and the build succeeds; [set.update] has added the
    key of the section to the set. *)
Lemma build_over_set_succeeds :
  let p := mk_parser [] [("a", [("b", "{1, 2}")]); ("a.b", [("c", "1")])] in
  build CPython.lib p ["a"] (VDict [])
  = Ok (VDict [("a", VDict [("b", VSet [VInt 1; VInt 2])])])
  /\ split_path "a.b" = Ok ["a"; "b"]
  /\ parse_config CPython.lib (cp_write p)
     = Ok (VDict [("a", VDict [("b", VSet [VInt 1; VInt 2; VStr "c"])])]).
Proof. repeat split. Qed.

(** A conflict inside the path. *)
Example build_conflict_inside :
  build CPython.lib
    (mk_parser [] [("a", [("b", "1")]); ("a.b.c", [])])
    ["a"; "a.b.c"] (VDict [])
  = Raise TypeError.
Proof. reflexivity. Qed.

(** *** Merging *)

Lemma dict_update_get (V : Type) (e : dict V) :
  forall (d : dict V) (k : string),
    NoDup (dict_keys e) ->
    dict_get k (dict_update d e)
    = match dict_get k e with Some v => Some v | None => dict_get k d end.
Proof.
  unfold dict_update.
  induction e as [|[k0 v0] e IH]; intros d k Hnd; cbn; [reflexivity|].
  inversion Hnd as [|? ? Hk He]; subst. rewrite (IH _ k He).
  destruct (String.eqb_spec k0 k) as [->|Hne].
  - rewrite dict_get_fresh by exact Hk. apply dict_get_set_same.
  - destruct (dict_get k e); [reflexivity|].
    apply dict_get_set_other. congruence.
Qed.

Lemma dict_update_NoDup (V : Type) (e : dict V) :
  forall d : dict V,
    NoDup (dict_keys d) -> NoDup (dict_keys (dict_update d e)).
Proof.
  unfold dict_update. induction e as [|[k0 v0] e IH]; intros d H; cbn; [exact H|].
  apply IH. now apply dict_set_NoDup.
Qed.

Section Builder.
Variable L : pylib.

(** Every text of a section decodes without raising. *)
Definition all_decode (its : dict string) : Prop :=
  Forall (fun kt => exists v, config_literal_eval L (snd kt) = Ok v) its.

Lemma eval_items_returns (its : dict string) :
  all_decode its -> forall acc, exists new, eval_items L its acc = Ok new.
Proof.
  induction 1 as [|[k t] its [v Hv] _ IH]; intros acc; cbn.
  - eauto.
  - cbn in Hv. rewrite Hv. cbn. apply IH.
Qed.

Lemma eval_items_NoDup (its : dict string) :
  forall acc new,
    eval_items L its acc = Ok new ->
    NoDup (dict_keys acc) -> NoDup (dict_keys new).
Proof.
  induction its as [|[k t] its IH]; intros acc new H Hacc; cbn in H.
  - now injection H as <-.
  - destruct (config_literal_eval L t) as [v|e]; [|discriminate H].
    cbn in H. apply (IH _ _ H). now apply dict_set_NoDup.
Qed.

Lemma eval_items_get_other (its : dict string) (k : string) :
  forall acc new,
    eval_items L its acc = Ok new ->
    ~ In k (dict_keys its) ->
    dict_get k new = dict_get k acc.
Proof.
  induction its as [|[k0 t] its IH]; intros acc new H Hk; cbn in H.
  - now injection H as <-.
  - destruct (config_literal_eval L t) as [v|e]; [|discriminate H].
    cbn in H, Hk. rewrite (IH _ _ H) by tauto.
    apply dict_get_set_other. intros ->. tauto.
Qed.

(** The comprehension binds a key to the decoded text of that key. *)
Lemma eval_items_get (its : dict string) (k t : string) (v : value) :
  forall acc new,
    NoDup (dict_keys its) ->
    dict_get k its = Some t ->
    config_literal_eval L t = Ok v ->
    eval_items L its acc = Ok new ->
    dict_get k new = Some v.
Proof.
  induction its as [|[k0 t0] its IH]; intros acc new Hnd Hget Hv H;
    cbn in *; [discriminate Hget|].
  inversion Hnd as [|? ? Hk0 Hits]; subst.
  destruct (config_literal_eval L t0) as [v0|e] eqn:E0; [|discriminate H].
  cbn in H. destruct (String.eqb_spec k0 k) as [->|Hne].
  - injection Hget as ->. rewrite Hv in E0. injection E0 as <-.
    rewrite (eval_items_get_other its k _ _ H Hk0).
    apply dict_get_set_same.
  - now apply (IH _ _ Hits Hget Hv H).
Qed.

(** The dict that the walk reaches or creates at the end of [path], when
    nothing but dicts stands in the way. *)
Fixpoint walkable (current : value) (path : list string) : option tree :=
  match path with
  | [] => match current with VDict d => Some d | _ => None end
  | k :: path' =>
      match current with
      | VDict d =>
          match dict_get k d with
          | Some c => walkable c path'
          | None => Some []
          end
      | _ => None
      end
  end.

Lemma walkable_empty (path : list string) : walkable (VDict []) path = Some [].
Proof. destruct path; reflexivity. Qed.

Lemma get_path_walkable (path : list string) :
  forall current d,
    get_path current path = Some (VDict d) -> walkable current path = Some d.
Proof.
  induction path as [|k path IH]; intros current d H; cbn in *.
  - now injection H as ->.
  - destruct current; try discriminate H.
    destruct (dict_get k d0); [auto | discriminate H].
Qed.

(** The walk succeeds and leaves at [path] the dict that was there, or an
    empty one, updated with the decoded entries. *)
Lemma walk_ok (its : dict string) (new : dict value) (path : list string) :
  eval_items L its [] = Ok new ->
  forall current d0,
    walkable current path = Some d0 ->
    exists T,
      walk L path current its = Ok T
      /\ is_dict T = true
      /\ get_path T path = Some (VDict (dict_update d0 new)).
Proof.
  intros Hnew. induction path as [|k path IH]; intros current d0 Hw; cbn in *.
  - destruct current; try discriminate Hw. injection Hw as ->.
    rewrite Hnew. cbn. eauto.
  - destruct current; try discriminate Hw.
    destruct (dict_get k d) as [c|] eqn:Hk.
    + destruct (IH c d0 Hw) as (T & -> & _ & HT). cbn.
      eexists. split; [reflexivity|]. split; [reflexivity|].
      cbn. now rewrite dict_get_set_same.
    + injection Hw as <-.
      destruct (IH (VDict []) [] (walkable_empty path)) as (T & -> & _ & HT).
      cbn. eexists. split; [reflexivity|]. split; [reflexivity|].
      cbn. now rewrite dict_get_set_same.
Qed.

(** Processing a section whose path leads to a dict binds each of its
    keys, in that dict, to the decoded text of the key, whatever was bound
    there. *)
Lemma walk_overwrites
    (its : dict string) (path : list string) (current : value) (d0 : tree)
    (k t : string) (v : value) :
  walkable current path = Some d0 ->
  all_decode its ->
  NoDup (dict_keys its) ->
  dict_get k its = Some t ->
  config_literal_eval L t = Ok v ->
  exists T d,
    walk L path current its = Ok T
    /\ get_path T path = Some (VDict d)
    /\ get_path T (path ++ [k]) = Some v.
Proof.
  intros Hw Hall Hnd Hget Hv.
  destruct (eval_items_returns its Hall []) as [new Hnew].
  destruct (walk_ok its new path Hnew current d0 Hw) as (T & HT & _ & Hp).
  exists T, (dict_update d0 new). split; [exact HT|]. split; [exact Hp|].
  rewrite (get_path_app path [k] T _ Hp). cbn.
  rewrite dict_update_get
    by (apply (eval_items_NoDup its [] new Hnew); constructor).
  now rewrite (eval_items_get its k t v [] new Hnd Hget Hv Hnew).
Qed.
End Builder.

(** Two sections of one node that bind the same option. *)
Definition merge_parser : parser :=
  mk_parser [] [("a", [("b", "1")]); ("'a'", [("b", "2")])].

(** ** Empty documents (C10) *)

(** C10. A text in which [read_string] finds no section decodes to the
    empty tree; the empty tree has no section, and [_dump] writes the empty
    text for it. *)
Theorem empty_document (L : pylib) (text : string) (p : parser) :
  read_string L text = Some p ->
  sections p = [] ->
  parse_config L text = Ok (VDict [])
  /\ flatten_sections [] = []
  /\ _dump L [] = Ok "".
Proof.
  intros Hread Hsec. unfold parse_config. rewrite Hread, Hsec.
  repeat split.
Qed.

Lemma empty_document_witness :
  CPython.read_string "" = Some empty_parser
  /\ (parse_config CPython.lib "" = Ok (VDict [])
      /\ flatten_sections [] = []
      /\ _dump CPython.lib [] = Ok "").
Proof.
  split; [reflexivity|].
  apply (empty_document CPython.lib "" empty_parser); reflexivity.
Defined.

(** ** The document round trip (C1) *)

(** *** Trees whose nodes all satisfy a property *)

Fixpoint tree_all (N : tree -> Prop) (v : value) : Prop :=
  match v with
  | VDict d =>
      N d
      /\ (fix all (d : list (string * value)) : Prop :=
            match d with
            | [] => True
            | (_, x) :: d' => tree_all N x /\ all d'
            end) d
  | _ => True
  end.

Lemma tree_all_node (N : tree -> Prop) (d : tree) :
  tree_all N (VDict d) ->
  N d /\ Forall (fun kv => tree_all N (snd kv)) d.
Proof.
  intros [Hn H]. split; [exact Hn|]. clear Hn.
  induction d as [|[k x] d IH]; constructor.
  - apply H.
  - apply IH, H.
Qed.

Lemma tree_all_wf (N : tree -> Prop) (v : value) :
  (forall d, N d -> NoDup (dict_keys d)) -> tree_all N v -> wf_tree v.
Proof.
  intros HN. induction v as [v Hv | d IH] using tree_ind; intros H.
  - destruct v; try discriminate Hv; exact I.
  - destruct H as [Hn H]. split; [auto|]. clear Hn.
    induction d as [|[k x] d IHd]; [exact I|].
    inversion IH as [|? ? Hx Hd]; subst. split.
    + apply Hx, H.
    + apply IHd; [exact Hd | apply H].
Qed.

(** *** Putting a value at a path *)

(** [current] with [x] at [path]: the dicts on the way are kept, the missing
    ones are made, as the walk of [parse_config] does. *)
Fixpoint put (current : value) (path : list string) (x : value) : value :=
  match path with
  | [] => x
  | k :: path' =>
      match current with
      | VDict d =>
          let c := match dict_get k d with Some c => c | None => VDict [] end in
          VDict (dict_set k (put c path' x) d)
      | _ => current
      end
  end.

Lemma dict_set_set (V : Type) (k : string) (a b : V) (d : dict V) :
  dict_set k b (dict_set k a d) = dict_set k b d.
Proof.
  induction d as [|[k' v'] d IH]; cbn.
  - now rewrite String.eqb_refl.
  - destruct (String.eqb_spec k' k) as [->|Hne]; cbn.
    + now rewrite String.eqb_refl.
    + destruct (String.eqb_spec k' k); [contradiction | now rewrite IH].
Qed.

Section Put.
Variable L : pylib.

(** The walk, when nothing stands in its way, is a [put]. *)
Lemma walk_put (its : dict string) (new : dict value) (path : list string) :
  eval_items L its [] = Ok new ->
  forall current d0,
    walkable current path = Some d0 ->
    walk L path current its = Ok (put current path (VDict (dict_update d0 new))).
Proof.
  intros Hnew. induction path as [|k path IH]; intros current d0 Hw; cbn in *.
  - destruct current; try discriminate Hw. injection Hw as ->.
    now rewrite Hnew.
  - destruct current; try discriminate Hw.
    destruct (dict_get k d) as [c|] eqn:Hk.
    + now rewrite (IH c d0 Hw).
    + injection Hw as <-. now rewrite (IH (VDict []) [] (walkable_empty path)).
Qed.

Lemma walkable_put (path : list string) (e : tree) :
  forall current d0,
    walkable current path = Some d0 ->
    forall q, walkable (put current path (VDict e)) (path ++ q)
              = walkable (VDict e) q.
Proof.
  induction path as [|k path IH]; intros current d0 Hw q; cbn in *.
  - reflexivity.
  - destruct current; try discriminate Hw. rewrite dict_get_set_same.
    destruct (dict_get k d) as [c|] eqn:Hk.
    + apply (IH c d0 Hw).
    + apply (IH (VDict []) [] (walkable_empty path)).
Qed.

Lemma put_put (path : list string) (e : tree) :
  forall current d0,
    walkable current path = Some d0 ->
    forall q x,
      put (put current path (VDict e)) (path ++ q) x
      = put current path (put (VDict e) q x).
Proof.
  induction path as [|k path IH]; intros current d0 Hw q x; cbn in *.
  - reflexivity.
  - destruct current; try discriminate Hw. rewrite dict_get_set_same.
    rewrite dict_set_set.
    destruct (dict_get k d) as [c|] eqn:Hk.
    + now rewrite (IH c d0 Hw).
    + now rewrite (IH (VDict []) [] (walkable_empty path)).
Qed.

End Put.

(** *** Node keys and leaves that survive *)

(** A key under which a nested tree can be stored: it survives the path
    codec and is not empty. *)
Definition good_key (k : string) : bool :=
  key_ok k && negb (String.eqb k "").

Lemma split_join_good (path : list string) :
  path <> [] ->
  Forall (fun k => good_key k = true) path ->
  split_path (join_path path) = Ok path.
Proof.
  intros Hne Hgood. unfold split_path.
  rewrite (split_loop_join path _ [] Hne); [reflexivity | | | apply Nat.lt_succ_diag_r].
  - eapply Forall_impl; [|exact Hgood]. cbn. intros k Hk.
    unfold good_key in Hk. now apply andb_true_iff in Hk as [-> _].
  - right. destruct (exists_last Hne) as (q & k & ->).
    rewrite last_last. apply Forall_app in Hgood as [_ Hk].
    inversion Hk as [|? ? Hk' _]; subst. unfold good_key in Hk'.
    apply andb_true_iff in Hk' as [_ Hk']. apply negb_true_iff in Hk'.
    now apply String.eqb_neq in Hk'.
Qed.

Section RoundTrip.
Variable L : pylib.

(** The value codec gives back a value equal to [v]. *)
Definition leaf_round_trip (v : value) : Prop :=
  exists text r,
    config_literal_dump L v = Ok text
    /\ config_literal_eval L text = Ok r
    /\ py_eq r v = true.

(** The text written for a leaf and the value read back from it. *)
Definition dump_leaf (v : value) : string :=
  match config_literal_dump L v with Ok s => s | Raise _ => "" end.

Definition decode_leaf (v : value) : value :=
  match config_literal_eval L (dump_leaf v) with Ok r => r | Raise _ => v end.

Definition dumped_section (sec : dict value) : dict string :=
  map (fun kv => (fst kv, dump_leaf (snd kv))) sec.

Definition decoded_section (sec : dict value) : dict value :=
  map (fun kv => (fst kv, decode_leaf (snd kv))) sec.

Definition dumped_sections (secs : section_map) : dict (dict string) :=
  map (fun s => (fst s, dumped_section (snd s))) secs.

(** What is asked of a node: its keys are distinct, the keys of its nested
    trees are good and its leaves go through the value codec. *)
Definition entry_ok (kv : string * value) : Prop :=
  if is_dict (snd kv) then good_key (fst kv) = true
  else leaf_round_trip (snd kv).

Definition node_ok (d : tree) : Prop :=
  NoDup (dict_keys d) /\ Forall entry_ok d.

(** The tree that [parse_config] makes of the sections of a node: the
    leaves as they are read back, then the nested trees. *)
Definition rebuilt_children (rebuilt : value -> value)
  : list (string * value) -> list (string * value) :=
  fix go (d : list (string * value)) : list (string * value) :=
    match d with
    | [] => []
    | (k, x) :: d' => if is_dict x then (k, rebuilt x) :: go d' else go d'
    end.

Fixpoint rebuilt (v : value) : value :=
  match v with
  | VDict d =>
      VDict (decoded_section (leaves d) ++ rebuilt_children rebuilt d)%list
  | _ => v
  end.

(** The loop of [parse_config] over sections given with their options. *)
Fixpoint build_list (secs : dict (dict string)) (config : value)
  : result value :=
  match secs with
  | [] => Ok config
  | (name, opts) :: secs' =>
      parts <- split_path name ;;
      config' <- walk L parts config opts ;;
      build_list secs' config'
  end.

Lemma build_list_app (a b : dict (dict string)) :
  forall c,
    build_list (a ++ b)%list c = (c' <- build_list a c ;; build_list b c').
Proof.
  induction a as [|[n o] a IH]; intros c; cbn [app build_list]; [reflexivity|].
  destruct (split_path n) as [parts|e]; cbn [bind]; [|reflexivity].
  destruct (walk L parts c o) as [c'|e]; cbn [bind]; [apply IH | reflexivity].
Qed.

Lemma dumped_sections_app (a b : section_map) :
  dumped_sections (a ++ b)%list
  = (dumped_sections a ++ dumped_sections b)%list.
Proof. apply map_app. Qed.

Lemma decoded_section_keys (sec : dict value) :
  dict_keys (decoded_section sec) = dict_keys sec.
Proof.
  unfold dict_keys, decoded_section. rewrite map_map. reflexivity.
Qed.

Lemma dumped_section_keys (sec : dict value) :
  dict_keys (dumped_section sec) = dict_keys sec.
Proof.
  unfold dict_keys, dumped_section. rewrite map_map. reflexivity.
Qed.

Lemma leaf_round_trip_texts (v : value) :
  leaf_round_trip v ->
  config_literal_dump L v = Ok (dump_leaf v)
  /\ config_literal_eval L (dump_leaf v) = Ok (decode_leaf v)
  /\ py_eq (decode_leaf v) v = true.
Proof.
  intros (text & r & Hd & He & Hpy). unfold decode_leaf, dump_leaf.
  rewrite Hd, He. auto.
Qed.

(** The options written for the leaves of a node decode to the leaves as
    they are read back. *)
Lemma eval_dumped_section (sec : dict value) :
  Forall (fun kv => leaf_round_trip (snd kv)) sec ->
  forall acc,
    eval_items L (dumped_section sec) acc
    = Ok (dict_update acc (decoded_section sec)).
Proof.
  induction 1 as [|[k v] sec Hv _ IH]; intros acc; cbn; [reflexivity|].
  destruct (leaf_round_trip_texts v Hv) as (_ & -> & _). cbn.
  now rewrite IH.
Qed.

Lemma leaves_round_trip (d : tree) :
  Forall entry_ok d -> Forall (fun kv => leaf_round_trip (snd kv)) (leaves d).
Proof.
  unfold leaves. induction 1 as [|[k v] d Hv _ IH]; cbn; [constructor|].
  unfold entry_ok in Hv. cbn in Hv.
  destruct (is_dict v); cbn; [exact IH | now constructor].
Qed.
End RoundTrip.


Lemma leaves_subtrees_perm (d : tree) :
  Permutation (dict_keys (leaves d) ++ dict_keys (subtrees d)) (dict_keys d).
Proof.
  unfold leaves, subtrees, dict_keys.
  induction d as [|[k v] d IH]; cbn; [constructor|].
  destruct (is_dict v); cbn.
  - symmetry. apply Permutation_cons_app. now symmetry.
  - now constructor.
Qed.

Lemma leaves_subtrees_NoDup (d : tree) :
  NoDup (dict_keys d) ->
  NoDup (dict_keys (leaves d) ++ dict_keys (subtrees d)).
Proof.
  intros H. eapply Permutation_NoDup; [|exact H].
  symmetry. apply leaves_subtrees_perm.
Qed.

Section RoundTripBuild.
Variable L : pylib.

(** The children of a node, processed in turn from a tree that has the
    dict [e] at [path], are appended to [e]. *)
Lemma build_children (path : list string) (d : tree) :
  Forall (fun kv =>
            forall path current,
              tree_all (node_ok L) (snd kv) ->
              is_dict (snd kv) = true ->
              path <> [] ->
              Forall (fun k => good_key k = true) path ->
              walkable current path = Some [] ->
              build_list L (dumped_sections L (preorder (snd kv) path)) current
              = Ok (put current path (rebuilt L (snd kv)))) d ->
  Forall (fun kv => tree_all (node_ok L) (snd kv)) d ->
  Forall (entry_ok L) d ->
  Forall (fun k => good_key k = true) path ->
  forall current d0 e,
    walkable current path = Some d0 ->
    NoDup (dict_keys e ++ dict_keys (subtrees d)) ->
    build_list L (dumped_sections L (preorder_children preorder path d))
      (put current path (VDict e))
    = Ok (put current path (VDict (e ++ rebuilt_children (rebuilt L) d)%list)).
Proof.
  induction 1 as [|[k x] d Hx _ IH]; intros Hall Hent Hpath current d0 e Hw Hnd.
  - cbn. now rewrite app_nil_r.
  - inversion Hall as [|? ? Hax Had]; subst.
    inversion Hent as [|? ? Hex Hed]; subst.
    cbn [preorder_children rebuilt_children snd] in *.
    unfold subtrees in Hnd. cbn [filter snd] in Hnd.
    destruct (is_dict x) eqn:Ex.
    + unfold entry_ok in Hex. cbn [fst snd] in Hex. rewrite Ex in Hex.
      cbn [dict_keys map fst] in Hnd.
      assert (Hk : ~ In k (dict_keys e)).
      { intros Hin. apply NoDup_remove_2 in Hnd. apply Hnd.
        apply in_or_app. now left. }
      rewrite dumped_sections_app, build_list_app.
      rewrite Hx; [| exact Hax | reflexivity | now destruct path
                   | apply Forall_app; split; [exact Hpath | now constructor] |].
      2:{ rewrite (walkable_put path e current d0 Hw [k]). cbn.
          now rewrite dict_get_fresh. }
      cbn [bind].
      rewrite (put_put path e current d0 Hw [k]). cbn [put].
      rewrite dict_set_new by exact Hk.
      rewrite (IH Had Hed Hpath current d0 _ Hw).
      * now rewrite <- app_assoc.
      * unfold dict_keys in *. rewrite map_app, <- app_assoc. exact Hnd.
    + cbn [app]. now apply (IH Had Hed Hpath current d0 e Hw).
Qed.

(** The sections of a node and of the nodes below it, processed from a tree
    in which the walk along [path] meets nothing, put the rebuilt node at
    [path]. *)
Lemma build_subtree (v : value) :
  forall path current,
    tree_all (node_ok L) v ->
    is_dict v = true ->
    path <> [] ->
    Forall (fun k => good_key k = true) path ->
    walkable current path = Some [] ->
    build_list L (dumped_sections L (preorder v path)) current
    = Ok (put current path (rebuilt L v)).
Proof.
  induction v as [v Hv | d IH] using tree_ind;
    intros path current Hall Hd Hne Hpath Hw; [congruence|].
  apply tree_all_node in Hall as [[Hkeys Hent] Hall].
  cbn [preorder dumped_sections map fst snd build_list].
  rewrite (split_join_good path Hne Hpath). cbn [bind].
  pose proof (leaves_keys_NoDup d Hkeys) as Hl.
  rewrite (walk_put L _ (decoded_section L (leaves d)) path) with (d0 := []);
    [| | exact Hw].
  2:{ rewrite (eval_dumped_section L _ (leaves_round_trip L d Hent)).
      rewrite dict_update_nil; [reflexivity|].
      now rewrite decoded_section_keys. }
  cbn [bind].
  rewrite dict_update_nil by now rewrite decoded_section_keys.
  apply (build_children path d IH Hall Hent Hpath current [] _ Hw).
  rewrite decoded_section_keys. now apply leaves_subtrees_NoDup.
Qed.
End RoundTripBuild.

Section RoundTripDump.
Variable L : pylib.

Lemma dump_items_spec (sec : dict value) :
  Forall (fun kv => leaf_round_trip L (snd kv)) sec ->
  forall acc,
    dump_items L sec acc = Ok (dict_update acc (dumped_section L sec)).
Proof.
  induction 1 as [|[k v] sec Hv _ IH]; intros acc; cbn; [reflexivity|].
  destruct (leaf_round_trip_texts L v Hv) as (-> & _ & _). cbn.
  now rewrite IH.
Qed.

(** What is asked of a section that [_dump] writes. *)
Definition section_ok (s : string * dict value) : Prop :=
  NoDup (dict_keys (snd s))
  /\ Forall (fun kv => leaf_round_trip L (snd kv)) (snd s).

Lemma preorder_children_ok (path : list string) (d : tree) :
  Forall (fun kv => forall path,
            tree_all (node_ok L) (snd kv) ->
            Forall section_ok (preorder (snd kv) path)) d ->
  Forall (fun kv => tree_all (node_ok L) (snd kv)) d ->
  Forall section_ok (preorder_children preorder path d).
Proof.
  induction 1 as [|[k x] d Hx _ IH]; intros Hall; cbn; [constructor|].
  inversion Hall as [|? ? Hax Had]; subst. apply Forall_app. split; [|auto].
  destruct (is_dict x); [now apply Hx | constructor].
Qed.

Lemma preorder_ok (v : value) :
  forall path,
    tree_all (node_ok L) v -> Forall section_ok (preorder v path).
Proof.
  induction v as [v Hv | d IH] using tree_ind; intros path Hall.
  - destruct v; try discriminate Hv; constructor.
  - apply tree_all_node in Hall as [[Hkeys Hent] Hall]. cbn [preorder].
    constructor; [| now apply preorder_children_ok].
    split; cbn [snd]; [now apply leaves_keys_NoDup | now apply leaves_round_trip].
Qed.

(** [_dump] fills the parser with the dumped sections, in their order. *)
Lemma dump_sections_spec (secs : section_map) :
  Forall section_ok secs ->
  ~ In "DEFAULT" (dict_keys secs) ->
  forall p,
    NoDup (dict_keys (cp_sections p) ++ dict_keys secs) ->
    dump_sections L secs p
    = Ok (mk_parser (cp_defaults p)
            (cp_sections p ++ dumped_sections L secs)%list).
Proof.
  induction 1 as [|[name sec] secs [Hkeys Hsec] _ IH]; intros Hdef p Hnd.
  - cbn. rewrite app_nil_r. now destruct p.
  - cbn [dump_sections]. cbn [snd] in Hkeys, Hsec.
    cbn [dict_keys map fst] in Hdef, Hnd.
    assert (Hname : ~ In name (dict_keys (cp_sections p))).
    { intros Hin. apply NoDup_remove_2 in Hnd. apply Hnd.
      apply in_or_app. now left. }
    unfold add_section.
    destruct (String.eqb_spec name "DEFAULT") as [->|_];
      [exfalso; apply Hdef; now left|].
    rewrite (proj2 (dict_mem_false _ _ _) Hname). cbn [bind].
    rewrite (dump_items_spec sec Hsec).
    rewrite dict_update_nil by now rewrite dumped_section_keys.
    cbn [bind]. unfold update_section. cbn [cp_sections cp_defaults].
    rewrite dict_get_set_same, dict_set_set.
    rewrite dict_update_nil by now rewrite dumped_section_keys.
    rewrite dict_set_new by exact Hname.
    rewrite IH.
    + cbn [cp_sections cp_defaults dumped_sections map fst snd].
      now rewrite <- app_assoc.
    + intros Hin. apply Hdef. now right.
    + cbn [cp_sections]. unfold dict_keys in *.
      rewrite map_app, <- app_assoc. exact Hnd.
Qed.

(** With no default option and distinct names, the loop over
    [parser.sections()] is the loop over the sections themselves. *)
Lemma build_as_list (p : parser) :
  cp_defaults p = [] ->
  NoDup (dict_keys (cp_sections p)) ->
  Forall (fun s => NoDup (dict_keys (snd s))) (cp_sections p) ->
  forall secs,
    incl secs (cp_sections p) ->
    forall c, build L p (dict_keys secs) c = build_list L secs c.
Proof.
  intros Hdef Hnd Hopts secs.
  induction secs as [|[name opts] secs IH]; intros Hincl c; [reflexivity|].
  cbn [dict_keys map fst build build_list].
  assert (Hin : In (name, opts) (cp_sections p)) by (apply Hincl; now left).
  assert (Hit : items p name = opts).
  { unfold items. rewrite (dict_get_in _ name opts _ Hnd Hin), Hdef.
    apply dict_update_nil.
    rewrite Forall_forall in Hopts. apply (Hopts _ Hin). }
  rewrite Hit. destruct (split_path name) as [parts|e]; cbn [bind]; [|reflexivity].
  destruct (walk L parts c opts) as [c'|e]; cbn [bind]; [|reflexivity].
  apply IH. intros s Hs. apply Hincl. now right.
Qed.
End RoundTripDump.

(** *** Equality of the rebuilt tree *)

Lemma py_eq_dict (d1 d2 : tree) :
  py_eq (VDict d1) (VDict d2)
  = Nat.eqb (length d1) (length d2)
    && forallb (fun kx => match dict_get (fst kx) d2 with
                          | Some y => py_eq (snd kx) y
                          | None => false
                          end) d1.
Proof.
  cbn [py_eq]. f_equal.
  induction d1 as [|[k x] d1 IH]; cbn [forallb fst snd]; [reflexivity|].
  now rewrite IH.
Qed.

Lemma filter_partition_length (A : Type) (f : A -> bool) (l : list A) :
  length (filter (fun a => negb (f a)) l) + length (filter f l) = length l.
Proof.
  induction l as [|a l IH]; cbn; [reflexivity|].
  destruct (f a); cbn; lia.
Qed.

Section RoundTripEq.
Variable L : pylib.

Lemma rebuilt_children_length (d : tree) :
  length (rebuilt_children (rebuilt L) d) = length (subtrees d).
Proof.
  unfold subtrees. induction d as [|[k x] d IH]; cbn; [reflexivity|].
  destruct (is_dict x); cbn; now rewrite IH.
Qed.

Lemma decoded_leaves_eq (d sec : tree) :
  NoDup (dict_keys d) ->
  incl sec d ->
  Forall (fun kv => leaf_round_trip L (snd kv)) sec ->
  forallb (fun kx => match dict_get (fst kx) d with
                     | Some y => py_eq (snd kx) y
                     | None => false
                     end) (decoded_section L sec) = true.
Proof.
  intros Hnd Hincl H. induction H as [|[k v] sec Hv _ IH]; [reflexivity|].
  cbn [decoded_section map forallb fst snd].
  rewrite (dict_get_in _ k v d Hnd) by (apply Hincl; now left).
  destruct (leaf_round_trip_texts L v Hv) as (_ & _ & ->).
  apply IH. intros s Hs. apply Hincl. now right.
Qed.

Lemma rebuilt_children_eq (d sub : tree) :
  NoDup (dict_keys d) ->
  incl sub d ->
  Forall (fun kv => is_dict (snd kv) = true ->
                    py_eq (rebuilt L (snd kv)) (snd kv) = true) sub ->
  forallb (fun kx => match dict_get (fst kx) d with
                     | Some y => py_eq (snd kx) y
                     | None => false
                     end) (rebuilt_children (rebuilt L) sub) = true.
Proof.
  intros Hnd Hincl H. induction H as [|[k x] sub Hx _ IH]; [reflexivity|].
  cbn [rebuilt_children].
  assert (Hsub : incl sub d) by (intros s Hs; apply Hincl; now right).
  destruct (is_dict x) eqn:Ex; [|auto].
  cbn [forallb fst snd].
  rewrite (dict_get_in _ k x d Hnd) by (apply Hincl; now left).
  cbn [snd] in Hx. rewrite (Hx Ex). auto.
Qed.

(** The rebuilt tree is equal to the tree, in the sense of [==]. *)
Lemma rebuilt_eq (v : value) :
  tree_all (node_ok L) v -> is_dict v = true ->
  py_eq (rebuilt L v) v = true.
Proof.
  induction v as [v Hv | d IH] using tree_ind; intros Hall Hd; [congruence|].
  apply tree_all_node in Hall as [[Hkeys Hent] Hall].
  cbn [rebuilt]. rewrite py_eq_dict. apply andb_true_iff. split.
  - apply Nat.eqb_eq. rewrite length_app, rebuilt_children_length.
    unfold decoded_section. rewrite length_map.
    apply filter_partition_length.
  - rewrite forallb_app. apply andb_true_iff. split.
    + apply decoded_leaves_eq; [exact Hkeys | | now apply leaves_round_trip].
      intros s Hs. now apply filter_In in Hs as [Hs _].
    + apply rebuilt_children_eq; [exact Hkeys | apply incl_refl |].
      rewrite Forall_forall in *. intros kv Hin Hkv.
      apply (IH kv Hin); [apply (Hall kv Hin) | exact Hkv].
Qed.
End RoundTripEq.

(** *** The round trip *)

Lemma node_ok_wf (L : pylib) (v : value) :
  tree_all (node_ok L) v -> wf_tree v.
Proof. apply tree_all_wf. now intros d [H _]. Qed.

(** The document that [_dump] writes for a tree, and the tree that
    [parse_config] reads from it. *)
Lemma dump_then_parse (L : pylib) (t : tree) :
  tree_all (node_ok L) (VDict t) ->
  leaves t = [] ->
  NoDup (dict_keys (preorder (VDict t) [])) ->
  ~ In "DEFAULT" (dict_keys (preorder (VDict t) [])) ->
  let p := mk_parser [] (dumped_sections L (flatten_sections t)) in
  read_string L (cp_write p) = Some p ->
  _dump L t = Ok (cp_write p)
  /\ parse_config L (cp_write p) = Ok (rebuilt L (VDict t)).
Proof.
  intros Hall Hleaves Hnd Hdef p Hread.
  pose proof (node_ok_wf L _ Hall) as Hwf.
  pose proof (flatten_sections_spec t Hwf Hnd) as Hflat.
  pose proof (preorder_ok L (VDict t) [] Hall) as Hok.
  cbn [preorder] in Hok, Hnd, Hdef. cbn [dict_keys map fst] in Hnd, Hdef.
  inversion Hok as [|? ? _ Hsecs]; subst.
  inversion Hnd as [|? ? _ Hnames]; subst.
  assert (Hdef' : ~ In "DEFAULT" (dict_keys (preorder_children preorder [] t))).
  { intros Hin. apply Hdef. now right. }
  assert (Hdump : dump_sections L (flatten_sections t) empty_parser = Ok p).
  { rewrite Hflat. rewrite (dump_sections_spec L _ Hsecs Hdef' empty_parser Hnames).
    subst p. now rewrite Hflat. }
  split; [unfold _dump; now rewrite Hdump|].
  unfold parse_config. rewrite Hread. unfold sections.
  assert (Hkeys : dict_keys (cp_sections p)
                  = dict_keys (preorder_children preorder [] t)).
  { subst p. cbn [cp_sections]. rewrite Hflat.
    unfold dict_keys, dumped_sections. now rewrite map_map. }
  rewrite (build_as_list L p eq_refl); [| now rewrite Hkeys | | apply incl_refl].
  2:{ subst p. cbn [cp_sections]. rewrite Hflat. unfold dumped_sections.
      rewrite Forall_map. eapply Forall_impl; [|exact Hsecs].
      intros s [Hs _]. cbn [snd]. now rewrite dumped_section_keys. }
  subst p. cbn [cp_sections]. rewrite Hflat.
  apply tree_all_node in Hall as [[Hk Hent] Hall].
  change (VDict []) with (put (VDict []) [] (VDict [])).
  rewrite (build_children L [] t) with (d0 := []).
  - cbn [put rebuilt app]. now rewrite Hleaves.
  - rewrite Forall_forall. intros kv _ path current. apply build_subtree.
  - exact Hall.
  - exact Hent.
  - constructor.
  - reflexivity.
  - cbn [dict_keys map app]. pose proof (leaves_subtrees_NoDup t Hk) as H.
    now rewrite Hleaves in H.
Qed.

(** *** The names of the sections are distinct *)

(** The paths of the nodes, in the order of [preorder]. *)
Definition children_paths
    (paths : value -> list string -> list (list string)) (path : list string)
  : list (string * value) -> list (list string) :=
  fix go (d : list (string * value)) : list (list string) :=
    match d with
    | [] => []
    | (k, v) :: d' =>
        ((if is_dict v then paths v (path ++ [k])%list else []) ++ go d')%list
    end.

Fixpoint node_paths (v : value) (path : list string) : list (list string) :=
  match v with
  | VDict d => path :: children_paths node_paths path d
  | _ => []
  end.

Lemma preorder_names (v : value) :
  forall path,
    dict_keys (preorder v path) = map join_path (node_paths v path).
Proof.
  induction v as [v Hv | d IH] using tree_ind; intros path.
  - destruct v; try discriminate Hv; reflexivity.
  - cbn [preorder node_paths dict_keys map fst]. f_equal.
    induction IH as [|[k x] d Hx _ IHd]; [reflexivity|].
    cbn [preorder_children children_paths]. rewrite !map_app.
    rewrite IHd.
    f_equal. destruct (is_dict x); [apply Hx | reflexivity].
Qed.

Section Paths.
Variable L : pylib.

Definition paths_ok (path : list string) (l : list (list string)) : Prop :=
  NoDup l
  /\ forall q, In q l ->
       (exists r, q = (path ++ r)%list)
       /\ Forall (fun k => good_key k = true) q.

Lemma children_paths_ok (path : list string) (d : tree) :
  Forall (fun kv => forall path,
            tree_all (node_ok L) (snd kv) ->
            Forall (fun k => good_key k = true) path ->
            paths_ok path (node_paths (snd kv) path)) d ->
  Forall (fun kv => tree_all (node_ok L) (snd kv)) d ->
  Forall (entry_ok L) d ->
  NoDup (dict_keys d) ->
  Forall (fun k => good_key k = true) path ->
  NoDup (children_paths node_paths path d)
  /\ forall q, In q (children_paths node_paths path d) ->
       (exists k r, In k (dict_keys d) /\ q = (path ++ k :: r)%list)
       /\ Forall (fun k => good_key k = true) q.
Proof.
  induction 1 as [|[k x] d Hx _ IH]; intros Hall Hent Hnd Hpath.
  - split; [constructor | intros q []].
  - inversion Hall as [|? ? Hax Had]; subst.
    inversion Hent as [|? ? Hex Hed]; subst.
    inversion Hnd as [|? ? Hk Hnd']; subst.
    destruct (IH Had Hed Hnd' Hpath) as [IHn IHq].
    cbn [children_paths snd dict_keys map fst] in *.
    destruct (is_dict x) eqn:Ex.
    + unfold entry_ok in Hex. cbn [fst snd] in Hex. rewrite Ex in Hex.
      assert (Hpk : Forall (fun k => good_key k = true) (path ++ [k])%list).
      { apply Forall_app. split; [exact Hpath | now constructor]. }
      destruct (Hx (path ++ [k])%list Hax Hpk) as [Hxn Hxq].
      split.
      * apply NoDup_app; [exact Hxn | exact IHn |].
        intros q Hq1 Hq2.
        destruct (Hxq q Hq1) as [[r ->] _].
        destruct (IHq _ Hq2) as [(k' & r' & Hk' & E) _].
        rewrite <- app_assoc in E. apply app_inv_head in E.
        injection E as -> _. contradiction.
      * intros q Hq. apply in_app_or in Hq as [Hq|Hq].
        -- destruct (Hxq q Hq) as [[r ->] Hg]. split; [|exact Hg].
           exists k, r. split; [now left | now rewrite <- app_assoc].
        -- destruct (IHq q Hq) as [(k' & r' & Hk' & ->) Hg]. split; [|exact Hg].
           exists k', r'. split; [now right | reflexivity].
    + cbn [app]. split; [exact IHn|].
      intros q Hq. destruct (IHq q Hq) as [(k' & r' & Hk' & ->) Hg].
      split; [|exact Hg]. exists k', r'. split; [now right | reflexivity].
Qed.

Lemma node_paths_ok (v : value) :
  forall path,
    tree_all (node_ok L) v ->
    Forall (fun k => good_key k = true) path ->
    paths_ok path (node_paths v path).
Proof.
  induction v as [v Hv | d IH] using tree_ind; intros path Hall Hpath.
  - destruct v; try discriminate Hv; unfold paths_ok; cbn [node_paths];
      (split; [constructor | intros q []]).
  - apply tree_all_node in Hall as [[Hk Hent] Hall].
    destruct (children_paths_ok path d IH Hall Hent Hk Hpath) as [Hn Hq].
    cbn [node_paths]. split.
    + constructor; [|exact Hn]. intros Hin.
      destruct (Hq _ Hin) as [(k & r & _ & E) _].
      apply (f_equal (@length string)) in E. rewrite length_app in E.
      cbn in E. lia.
    + intros q [<-|Hin].
      * split; [exists []; now rewrite app_nil_r | exact Hpath].
      * destruct (Hq q Hin) as [(k & r & _ & ->) Hg]. split; [|exact Hg].
        now exists (k :: r).
Qed.

(** The names of the sections of a tree of good keys are distinct, and the
    name of the default section is among them only for a nested tree stored
    under that name at the root. *)
Lemma section_names_ok (t : tree) :
  tree_all (node_ok L) (VDict t) ->
  dict_get "DEFAULT" t = None ->
  NoDup (dict_keys (preorder (VDict t) []))
  /\ ~ In "DEFAULT" (dict_keys (preorder (VDict t) [])).
Proof.
  intros Hall Hdef. rewrite preorder_names.
  apply tree_all_node in Hall as [[Hk Hent] Hall].
  assert (IH : Forall (fun kv => forall path,
                tree_all (node_ok L) (snd kv) ->
                Forall (fun k => good_key k = true) path ->
                paths_ok path (node_paths (snd kv) path)) t).
  { rewrite Forall_forall. intros kv _ path. apply node_paths_ok. }
  destruct (children_paths_ok [] t IH Hall Hent Hk (Forall_nil _)) as [Hn Hq].
  cbn [node_paths map].
  assert (Hsplit : forall q, In q (children_paths node_paths [] t) ->
                             split_path (join_path q) = Ok q).
  { intros q Hin. destruct (Hq q Hin) as [(k & r & _ & E) Hg].
    apply split_join_good; [|exact Hg]. cbn [app] in E. now subst q. }
  split.
  - apply (NoDup_map_inv split_path). cbn [map].
    rewrite map_map.
    rewrite (map_ext_in _ (fun q => Ok q) _ Hsplit).
    change (split_path (join_path [])) with (@Ok (list string) [""]).
    constructor.
    + intros Hin. apply in_map_iff in Hin as (q & E & Hin).
      injection E as ->. destruct (Hq _ Hin) as [_ Hg].
      inversion Hg as [|? ? Hbad _]. discriminate Hbad.
    + apply Finite.Injective_map_NoDup; [|exact Hn].
      intros a b E. now injection E.
  - intros [E|Hin]; [discriminate E|].
    apply in_map_iff in Hin as (q & E & Hin).
    pose proof (Hsplit q Hin) as Hs. rewrite E in Hs.
    change (split_path "DEFAULT") with (@Ok (list string) ["DEFAULT"]) in Hs.
    injection Hs as <-.
    destruct (Hq _ Hin) as [(k & r & Hkin & E') _].
    cbn [app] in E'. injection E' as <- _.
    apply dict_get_none in Hdef. contradiction.
Qed.
End Paths.

(** C1, as amended. For every tree that has no scalar at its root and no
    nested tree under the name of the default section there, whose dicts
    bind a key once, in which the keys of the nested trees are not empty and
    survive the path codec, and whose leaves come back equal from the value
    codec: when the text engine reads back the document it wrote,
    [parse_config] applied to the text of [_dump] returns a tree equal to
    the tree. *)
Theorem document_round_trip (L : pylib) (t : tree) :
  tree_all (node_ok L) (VDict t) ->
  leaves t = [] ->
  dict_get "DEFAULT" t = None ->
  (let p := mk_parser [] (dumped_sections L (flatten_sections t)) in
   read_string L (cp_write p) = Some p) ->
  exists text T,
    _dump L t = Ok text
    /\ parse_config L text = Ok T
    /\ py_eq T (VDict t) = true.
Proof.
  intros Hall Hleaves Hdef Hread.
  destruct (section_names_ok L t Hall Hdef) as [Hnd Hnames].
  destruct (dump_then_parse L t Hall Hleaves Hnd Hnames Hread) as [Hd Hp].
  eexists. eexists. split; [exact Hd|]. split; [exact Hp|].
  now apply rebuilt_eq.
Qed.

Definition scenario_tree : tree :=
  [("x", VDict [("y", VDict [("z", VInt 1); ("w", VStr "1")])])].

Lemma document_round_trip_witness :
  _dump CPython.lib scenario_tree
  = Ok (cp_write (mk_parser []
          [("x", []); ("x.y", [("z", "1"); ("w", CPython.quoted "1")])]))
  /\ exists text T,
       _dump CPython.lib scenario_tree = Ok text
       /\ parse_config CPython.lib text = Ok T
       /\ py_eq T (VDict scenario_tree) = true.
Proof.
  split; [reflexivity|].
  apply (document_round_trip CPython.lib scenario_tree).
  - cbn. unfold node_ok, entry_ok. cbn.
    repeat split; repeat constructor; cbn; try tauto; try intuition discriminate.
    + exists "1", (VInt 1). repeat split.
    + exists (CPython.quoted "1"), (VStr "1"). repeat split.
  - reflexivity.
  - reflexivity.
  - reflexivity.
Defined.

(** C1 as it is stated fails: the scalar at the root of the tree is not
    written, and the document decodes to the empty tree. *)
Lemma document_round_trip_root_scalar :
  _dump CPython.lib [("a", VInt 1)] = Ok ""
  /\ parse_config CPython.lib "" = Ok (VDict [])
  /\ py_eq (VDict []) (VDict [("a", VInt 1)]) = false.
Proof. repeat split. Qed.

(** The concrete scenario of the specification, decoded; encoding the tree
    again also writes the empty section of the node [x]. *)
Example dump_scenario :
  _dump CPython.lib scenario_tree
  = Ok ("[x]" ++ String newline (String newline
        ("[x.y]" ++ String newline
           ("z = 1" ++ String newline
              ("w = " ++ CPython.quoted "1" ++ String newline
                 (String newline "")))))).
Proof. reflexivity. Qed.

Example parse_scenario :
  parse_config CPython.lib
    (cp_write (mk_parser []
       [("x.y", [("z", "1"); ("w", CPython.quoted "1")])]))
  = Ok (VDict scenario_tree).
Proof. reflexivity. Qed.


(** * Further properties of the module *)

(** ** PathCodec *)

(** The loop of [split_path] only adds keys to those it has. *)
Lemma split_loop_extends (fuel : nat) :
  forall s acc, exists r, split_loop fuel s acc = Ok (acc ++ r)%list.
Proof.
  induction fuel as [|fuel IH]; intros s acc; cbn [split_loop].
  - exists []. now rewrite app_nil_r.
  - destruct (search_here s) as [m ->].
    destruct (rest m) as [|c r]; [now exists [grp m]|].
    destruct (Nat.eqb _ _).
    + destruct (IH r (acc ++ [grp m])%list) as [x ->].
      exists (grp m :: x). now rewrite <- app_assoc.
    + destruct (IH (String c r) (acc ++ [grp m])%list) as [x ->].
      exists (grp m :: x). now rewrite <- app_assoc.
Qed.

Lemma split_path_head (name : string) :
  exists k ks, split_path name = Ok (k :: ks).
Proof.
  unfold split_path. cbn [split_loop].
  destruct (search_here name) as [m ->].
  destruct (rest m) as [|c r]; [now exists (grp m), []|].
  destruct (Nat.eqb _ _).
  - destruct (split_loop_extends (String.length name) r ([] ++ [grp m])%list)
      as [x ->].
    now exists (grp m), x.
  - destruct (split_loop_extends (String.length name) (String c r)
                ([] ++ [grp m])%list) as [x ->].
    now exists (grp m), x.
Qed.

(** [split_path] never returns the empty path: every section name, the
    empty one included, decodes to one key at least, so no section of a
    document addresses the root of the tree. *)
Theorem split_path_nonempty (name : string) :
  exists k ks, split_path name = Ok (k :: ks).
Proof. apply split_path_head. Qed.

(** Encoded names tell paths apart: two different non-empty paths of keys
    that survive the codec and do not end with the empty key have different
    names. *)
Theorem join_path_injective (p q : list string) :
  p <> [] -> q <> [] ->
  Forall (fun k => key_ok k = true) p ->
  Forall (fun k => key_ok k = true) q ->
  ends_well p -> ends_well q ->
  p <> q ->
  join_path p <> join_path q.
Proof.
  intros Hp Hq Hkp Hkq Hep Heq Hne E. apply Hne.
  pose proof (split_loop_join p (S (String.length (join_path p))) []
                Hp Hkp Hep (Nat.lt_succ_diag_r _)) as H1.
  pose proof (split_loop_join q (S (String.length (join_path q))) []
                Hq Hkq Heq (Nat.lt_succ_diag_r _)) as H2.
  rewrite E in H1. rewrite H1 in H2. now injection H2.
Qed.

Lemma join_path_injective_witness :
  (join_path ["a"; "b"] = "a.b" /\ join_path ["a.b"] = "'a.b'")
  /\ join_path ["a"; "b"] <> join_path ["a.b"].
Proof.
  split; [split; reflexivity|].
  apply (join_path_injective ["a"; "b"] ["a.b"]).
  - discriminate.
  - discriminate.
  - repeat constructor.
  - repeat constructor.
  - right. discriminate.
  - left. reflexivity.
  - discriminate.
Defined.

(** *** From a name to a path and back *)

Fixpoint ends_with_dot (s : string) : bool :=
  match s with
  | EmptyString => false
  | String c EmptyString => Ascii.eqb c dot
  | String _ s' => ends_with_dot s'
  end.

Lemma contains_app (c : ascii) (a b : string) :
  contains c (a ++ b) = contains c a || contains c b.
Proof.
  induction a as [|x a IH]; cbn; [reflexivity|].
  now rewrite IH, orb_assoc.
Qed.

Lemma forall_not_contains (c : ascii) (s : string) :
  str_forall (fun a => negb (Ascii.eqb a c)) s = true -> contains c s = false.
Proof.
  induction s as [|a s IH]; cbn; [reflexivity|].
  intros H. apply andb_true_iff in H as [Ha Hs].
  apply negb_true_iff in Ha. now rewrite Ha, (IH Hs).
Qed.

Lemma ends_with_dot_app (run s : string) :
  s <> EmptyString ->
  ends_with_dot (run ++ String dot s) = ends_with_dot s.
Proof.
  intros Hs. induction run as [|a run IH]; cbn [append ends_with_dot].
  - destruct s; [contradiction | reflexivity].
  - rewrite <- IH. destruct (run ++ String dot s) eqn:E; [|reflexivity].
    destruct run; discriminate E.
Qed.

Lemma match_here_quote_free (s : string) :
  quote_free s = true -> match_here s = match_unquoted s.
Proof.
  unfold quote_free, match_here. intros H.
  apply andb_true_iff in H as [Hs Hd].
  apply negb_true_iff in Hs. apply negb_true_iff in Hd.
  destruct s as [|c s]; [reflexivity|].
  cbn [contains] in Hs, Hd.
  apply orb_false_iff in Hs as [Hs _]. apply orb_false_iff in Hd as [Hd _].
  cbn [match_quoted]. now rewrite Hs, Hd.
Qed.

Lemma quote_free_app (a b : string) :
  quote_free (a ++ b) = quote_free a && quote_free b.
Proof.
  unfold quote_free. rewrite !contains_app.
  destruct (contains squote a), (contains squote b),
    (contains dquote a), (contains dquote b); reflexivity.
Qed.

Lemma str_join_cons (sep x : string) (p : list string) :
  p <> [] -> str_join sep (x :: p) = x ++ sep ++ str_join sep p.
Proof. destruct p; [contradiction | reflexivity]. Qed.

Lemma split_loop_dots (fuel : nat) :
  forall s acc,
    quote_free s = true -> ends_with_dot s = false ->
    String.length s < fuel ->
    exists p,
      split_loop fuel s acc = Ok (acc ++ p)%list
      /\ p <> []
      /\ Forall (fun k => contains dot k = false) p
      /\ str_join "." p = s.
Proof.
  induction fuel as [|fuel IH]; intros s acc Hq Hd Hlen; [lia|].
  cbn [split_loop].
  pose proof (span_spec (fun a => negb (Ascii.eqb a dot)) s) as Hspan.
  assert (Hm : match_here s = match_unquoted s)
    by now apply match_here_quote_free.
  unfold match_unquoted in Hm.
  destruct (span (fun a => negb (Ascii.eqb a dot)) s) as [run after].
  destruct Hspan as (Hs & Hrun & Hafter).
  apply forall_not_contains in Hrun.
  destruct after as [|c after].
  - cbn [match_tail] in Hm. rewrite (search_match s _ Hm). cbn [rest grp].
    exists [run]. split; [reflexivity|]. split; [discriminate|].
    split; [now constructor|]. cbn [str_join]. subst s.
    clear. induction run; cbn; congruence.
  - apply negb_false_iff, Ascii.eqb_eq in Hafter. subst c.
    cbn [match_tail] in Hm. rewrite Ascii.eqb_refl in Hm.
    rewrite (search_match s _ Hm). cbn [rest grp].
    destruct after as [|c after].
    + exfalso. subst s. clear - Hd. induction run as [|a run IHr].
      * discriminate Hd.
      * cbn [append ends_with_dot] in Hd.
        destruct (run ++ String dot "") eqn:E; [destruct run; discriminate E|].
        auto.
    + assert (Hne : String c after <> "") by discriminate.
      rewrite Hs, quote_free_app in Hq. apply andb_true_iff in Hq as [_ Hq].
      assert (Hq' : quote_free (String c after) = true).
      { unfold quote_free in *. cbn [contains] in Hq.
        change (Ascii.eqb dot squote) with false in Hq.
        change (Ascii.eqb dot dquote) with false in Hq. exact Hq. }
      rewrite Hs, (ends_with_dot_app run _ Hne) in Hd.
      assert (Hl : String.length (String c after) < fuel).
      { rewrite Hs, str_app_length in Hlen. cbn [String.length] in *. lia. }
      rewrite (proj2 (Nat.eqb_neq _ _));
        [| rewrite Hs, str_app_length; cbn [String.length]; lia].
      destruct (IH (String c after) (acc ++ [run])%list Hq' Hd Hl)
        as (p & -> & Hp & Hdots & Hjoin).
      exists (run :: p). split; [now rewrite <- app_assoc|].
      split; [discriminate|]. split; [now constructor|].
      rewrite (str_join_cons "." run p Hp), Hjoin, Hs. reflexivity.
Qed.

Lemma join_path_dot_free (p : list string) :
  Forall (fun k => contains dot k = false) p -> join_path p = str_join "." p.
Proof.
  intros H. unfold join_path. f_equal.
  induction H as [|k p Hk _ IH]; [reflexivity|].
  cbn [map]. unfold join_key at 1. now rewrite Hk, IH.
Qed.

(** A section name without quote characters that does not end with a dot is
    stable: the path it decodes to has no key with a dot and is encoded as
    the name itself, so the name is written back as it was read. *)
Theorem join_split_round_trip (name : string) :
  quote_free name = true ->
  ends_with_dot name = false ->
  exists p,
    split_path name = Ok p
    /\ Forall (fun k => contains dot k = false) p
    /\ join_path p = name.
Proof.
  intros Hq Hd.
  destruct (split_loop_dots (S (String.length name)) name [] Hq Hd
              (Nat.lt_succ_diag_r _)) as (p & Hp & _ & Hdots & Hjoin).
  exists p. split; [exact Hp|]. split; [exact Hdots|].
  now rewrite (join_path_dot_free p Hdots).
Qed.

Lemma join_split_round_trip_witness :
  split_path "core..remote" = Ok ["core"; ""; "remote"]
  /\ exists p,
       split_path "core..remote" = Ok p
       /\ Forall (fun k => contains dot k = false) p
       /\ join_path p = "core..remote".
Proof.
  split; [reflexivity|].
  apply (join_split_round_trip "core..remote"); reflexivity.
Defined.

(** A name that ends with a dot is not stable: the empty key after the last
    dot is not read. *)
Example join_split_trailing_dot :
  split_path "a." = Ok ["a"] /\ join_path ["a"] = "a".
Proof. split; reflexivity. Qed.

(** ** ValueCodec *)

Lemma json_char_length (c : ascii) : 1 <= String.length (json_char c).
Proof.
  unfold json_char.
  repeat match goal with
         | |- context [if ?b then _ else _] => destruct b
         end; cbn; lia.
Qed.

Lemma json_body_length (s : string) :
  String.length s <= String.length (json_body s).
Proof.
  induction s as [|c s IH]; cbn [json_body String.length]; [lia|].
  rewrite str_app_length. pose proof (json_char_length c). lia.
Qed.

Lemma json_string_differs (s : string) : json_string s <> s.
Proof.
  intros E. apply (f_equal String.length) in E. unfold json_string in E.
  cbn [String.length] in E. rewrite str_app_length in E.
  cbn [String.length] in E. pose proof (json_body_length s). lia.
Qed.

(** A string is written bare exactly when decoding it gives the string
    back; in every other case where a text is written, the text is not the
    string itself. *)
Theorem bare_string_iff (L : pylib) (s : string) :
  config_literal_dump L (VStr s) = Ok s
  <-> config_literal_eval L s = Ok (VStr s).
Proof.
  unfold config_literal_dump. split.
  - destruct (config_literal_eval L s) as [r|e]; cbn [bind]; [|discriminate].
    destruct (py_eq r (VStr s)) eqn:Hpy.
    + intros _. destruct r; try discriminate Hpy. cbn in Hpy.
      apply String.eqb_eq in Hpy. now subst.
    + cbn [json_dumps]. intros [= E]. now apply json_string_differs in E.
  - intros ->. cbn [bind py_eq]. now rewrite String.eqb_refl.
Qed.

(** ** TreeFlattener *)

Section DictForall.
Variable V : Type.
Variable P : V -> Prop.

Definition values_all (d : dict V) : Prop := Forall (fun kv => P (snd kv)) d.

Lemma dict_set_all (k : string) (v : V) (d : dict V) :
  values_all d -> P v -> values_all (dict_set k v d).
Proof.
  unfold values_all. intros Hd Hv.
  induction Hd as [|[k' v'] d Hx Hd IH]; cbn [dict_set].
  - now repeat constructor.
  - destruct (String.eqb k' k); constructor; cbn [snd] in *; auto.
Qed.

Lemma dict_update_all (e : dict V) :
  forall d, values_all d -> values_all e -> values_all (dict_update d e).
Proof.
  unfold dict_update.
  induction e as [|[k v] e IH]; intros d Hd He; cbn [fold_left]; [exact Hd|].
  inversion He as [|? ? Hv He']; subst.
  apply IH; [now apply dict_set_all | exact He'].
Qed.

Lemma dict_pop_all (k : string) (d : dict V) :
  values_all d -> values_all (dict_pop k d).
Proof.
  unfold values_all. induction 1 as [|[k' v'] d Hx Hd IH]; cbn [dict_pop].
  - constructor.
  - destruct (String.eqb k' k); [exact Hd | now constructor].
Qed.

Lemma dict_get_all (k : string) (v : V) (d : dict V) :
  values_all d -> dict_get k d = Some v -> P v.
Proof.
  unfold values_all. intros Hd Hg. apply dict_get_some_in in Hg.
  rewrite Forall_forall in Hd. exact (Hd _ Hg).
Qed.
End DictForall.

Arguments values_all {V} P d.

Definition not_dict (v : value) : Prop := is_dict v = false.

(** Every section holds leaves only. *)
Definition flat (res : section_map) : Prop :=
  values_all (values_all not_dict) res.

Lemma rec_loop_flat (path : list string) (d : tree) :
  Forall (fun kv => forall path res, flat res -> flat (rec (snd kv) path res)) d ->
  forall res sec,
    flat res -> values_all not_dict sec ->
    flat (fst (rec_loop rec path d res sec))
    /\ values_all not_dict (snd (rec_loop rec path d res sec)).
Proof.
  induction 1 as [|[k v] d Hv _ IH]; intros res sec Hres Hsec; cbn [rec_loop].
  - now split.
  - destruct (is_dict v) eqn:E.
    + apply IH; [now apply Hv | exact Hsec].
    + apply IH; [exact Hres | now apply dict_set_all].
Qed.

Lemma rec_flat (v : value) :
  forall path res, flat res -> flat (rec v path res).
Proof.
  induction v as [v Hv | d IH] using tree_ind; intros path res Hres.
  - destruct v; try discriminate Hv; exact Hres.
  - cbn [rec].
    assert (H1 : flat (dict_setdefault (join_path path) [] res)).
    { unfold dict_setdefault. match goal with
      | |- context [@dict_mem ?V ?k ?r] => destruct (@dict_mem V k r)
      end;
        [exact Hres|].
      apply dict_set_all; [exact Hres | constructor]. }
    destruct (rec_loop_flat path d IH _ [] H1 (Forall_nil _)) as [H2 H3].
    destruct (rec_loop rec path d _ []) as [res2 section].
    cbn [fst snd] in H2, H3.
    apply dict_set_all; [exact H2|].
    apply dict_update_all; [|exact H3].
    unfold res_get. destruct (dict_get (join_path path) res2) as [s|] eqn:E.
    + exact (dict_get_all _ _ _ s res2 H2 E).
    + constructor.
Qed.

(** The output of [flatten_sections] is flat: no emitted section holds a
    nested dict, whatever the tree. *)
Theorem flatten_sections_flat (t : tree) :
  Forall (fun s => Forall (fun kv => is_dict (snd kv) = false) (snd s))
    (flatten_sections t).
Proof.
  unfold flatten_sections.
  apply (dict_pop_all _ (values_all not_dict)), rec_flat. constructor.
Qed.

(** *** A nested tree named like the default section *)

Lemma dict_set_keeps (V : Type) (k k' : string) (v : V) (d : dict V) :
  In k' (dict_keys d) -> In k' (dict_keys (dict_set k v d)).
Proof.
  intros H. rewrite dict_set_keys. destruct (dict_mem k d); [exact H|].
  apply in_or_app. now left.
Qed.

Lemma dict_set_in (V : Type) (k : string) (v : V) (d : dict V) :
  In k (dict_keys (dict_set k v d)).
Proof.
  rewrite dict_set_keys. destruct (dict_mem k d) eqn:E.
  - unfold dict_mem in E. destruct (dict_get k d) as [x|] eqn:G; [|discriminate].
    apply dict_get_some_in in G. now apply (in_map fst) in G.
  - apply in_or_app. right. now left.
Qed.

Lemma dict_pop_keeps (V : Type) (k k' : string) (d : dict V) :
  k' <> k -> In k' (dict_keys d) -> In k' (dict_keys (dict_pop k d)).
Proof.
  intros Hne. induction d as [|[k0 v0] d IH]; cbn; [auto|].
  destruct (String.eqb_spec k0 k) as [->|Hk]; cbn.
  - intros [E|H]; [congruence | exact H].
  - intros [E|H]; [now left | right; auto].
Qed.

Lemma rec_loop_keeps (path : list string) (d : tree) (name : string) :
  Forall (fun kv => forall path res,
            In name (dict_keys res) ->
            In name (dict_keys (rec (snd kv) path res))) d ->
  forall res sec,
    In name (dict_keys res) ->
    In name (dict_keys (fst (rec_loop rec path d res sec))).
Proof.
  induction 1 as [|[k v] d Hv _ IH]; intros res sec Hres; cbn [rec_loop].
  - exact Hres.
  - destruct (is_dict v); apply IH; [now apply Hv | exact Hres].
Qed.

(** [rec] never removes a section. *)
Lemma rec_keeps (name : string) (v : value) :
  forall path res,
    In name (dict_keys res) -> In name (dict_keys (rec v path res)).
Proof.
  induction v as [v Hv | d IH] using tree_ind; intros path res Hres.
  - destruct v; try discriminate Hv; exact Hres.
  - cbn [rec].
    assert (H1 : In name (dict_keys (dict_setdefault (join_path path) [] res))).
    { unfold dict_setdefault. match goal with
      | |- context [@dict_mem ?V ?k ?r] => destruct (@dict_mem V k r)
      end;
        [exact Hres|].
      now apply dict_set_keeps. }
    pose proof (rec_loop_keeps path d name IH _ [] H1) as H2.
    destruct (rec_loop rec path d _ []) as [res2 section]. cbn [fst] in H2.
    now apply dict_set_keeps.
Qed.

Lemma rec_adds (v : value) (path : list string) (res : section_map) :
  is_dict v = true -> In (join_path path) (dict_keys (rec v path res)).
Proof.
  intros Hd. destruct v; try discriminate Hd. cbn [rec].
  destruct (rec_loop rec path d _ []) as [res2 section].
  apply dict_set_in.
Qed.

Lemma rec_loop_adds (path : list string) (d : tree) (k : string) (v : value) :
  In (k, v) d -> is_dict v = true ->
  forall res sec,
    In (join_path (path ++ [k])) (dict_keys (fst (rec_loop rec path d res sec))).
Proof.
  induction d as [|[k0 v0] d IH]; intros Hin Hd res sec; [contradiction|].
  cbn [rec_loop]. destruct Hin as [E|Hin].
  - injection E as -> ->. rewrite Hd.
    apply rec_loop_keeps; [|now apply rec_adds].
    rewrite Forall_forall. intros kv _ p r. apply rec_keeps.
  - destruct (is_dict v0); now apply IH.
Qed.

(** Every nested tree of the root has its section, under the encoded key,
    unless that name is empty. *)
Lemma flatten_sections_has_child (t : tree) (k : string) (v : value) :
  In (k, v) t -> is_dict v = true -> join_path [k] <> "" ->
  In (join_path [k]) (dict_keys (flatten_sections t)).
Proof.
  intros Hin Hd Hne. rewrite flatten_sections_unfold.
  apply dict_pop_keeps; [exact Hne|].
  exact (rec_loop_adds [] t k v Hin Hd _ []).
Qed.

Section DumpDefault.
Variable L : pylib.

Lemma dump_sections_default (secs : section_map) :
  In "DEFAULT" (dict_keys secs) ->
  forall p, exists e, dump_sections L secs p = Raise e.
Proof.
  induction secs as [|[name sec] secs IH]; intros Hin p; [contradiction|].
  cbn [dump_sections]. destruct Hin as [E|Hin].
  - cbn [fst] in E. subst name. unfold add_section. cbn. eauto.
  - destruct (add_section name p) as [p1|e]; cbn [bind]; [|eauto].
    destruct (dump_items L sec []) as [opts|e]; cbn [bind]; [|eauto].
    now apply IH.
Qed.

(** A tree with a nested tree under the key [DEFAULT] at its root cannot be
    dumped: [add_section] refuses the name of the default section, so
    [_dump] raises and writes nothing. *)
Theorem dump_refuses_default (t : tree) (d : tree) :
  dict_get "DEFAULT" t = Some (VDict d) ->
  exists e, _dump L t = Raise e.
Proof.
  intros Hget. apply dict_get_some_in in Hget.
  pose proof (flatten_sections_has_child t "DEFAULT" (VDict d) Hget eq_refl)
    as Hin.
  destruct (dump_sections_default (flatten_sections t) (Hin ltac:(discriminate))
              empty_parser) as [e He].
  exists e. unfold _dump. now rewrite He.
Qed.
End DumpDefault.

Lemma dump_refuses_default_witness :
  _dump CPython.lib [("DEFAULT", VDict [("a", VInt 1)])] = Raise ValueError
  /\ exists e, _dump CPython.lib [("DEFAULT", VDict [("a", VInt 1)])] = Raise e.
Proof.
  split; [reflexivity|].
  apply (dump_refuses_default CPython.lib _ [("a", VInt 1)]). reflexivity.
Defined.

(** ** TreeBuilder *)

Section BuilderShape.
Variable L : pylib.

Lemma walk_dict (parts : list string) (current : value) (its : dict string)
    (T : value) :
  is_dict current = true -> walk L parts current its = Ok T -> is_dict T = true.
Proof.
  intros Hd. destruct current; try discriminate Hd.
  destruct parts as [|k parts]; cbn [walk].
  - destruct (eval_items L its []); cbn [bind]; [|discriminate].
    now intros [= <-].
  - destruct (dict_get k d) as [c|];
      (destruct (walk L parts _ its); cbn [bind]; [|discriminate]);
      now intros [= <-].
Qed.

(** A dict all of whose values are dicts. *)
Definition dict_of_dicts (v : value) : Prop :=
  match v with
  | VDict d => Forall (fun kv => is_dict (snd kv) = true) d
  | _ => False
  end.

Lemma walk_dict_of_dicts (k : string) (parts : list string) (current : value)
    (its : dict string) (T : value) :
  dict_of_dicts current ->
  walk L (k :: parts) current its = Ok T ->
  dict_of_dicts T.
Proof.
  intros Hc. destruct current; try contradiction. cbn [dict_of_dicts] in Hc.
  cbn [walk]. destruct (dict_get k d) as [c|] eqn:Hk.
  - destruct (walk L parts c its) as [child|] eqn:Hw; cbn [bind]; [|discriminate].
    intros [= <-]. cbn [dict_of_dicts].
    apply (dict_set_all _ (fun v => is_dict v = true)); [exact Hc|].
    apply (walk_dict parts c its child); [|exact Hw].
    exact (dict_get_all _ (fun v => is_dict v = true) k c d Hc Hk).
  - destruct (walk L parts (VDict []) its) as [child|] eqn:Hw; cbn [bind];
      [|discriminate].
    intros [= <-]. cbn [dict_of_dicts].
    apply (dict_set_all _ (fun v => is_dict v = true)); [exact Hc|].
    now apply (walk_dict parts (VDict []) its child).
Qed.

Lemma build_dict_of_dicts (p : parser) (names : list string) :
  forall config T,
    dict_of_dicts config -> build L p names config = Ok T -> dict_of_dicts T.
Proof.
  induction names as [|n names IH]; intros config T Hc; cbn [build].
  - now intros [= <-].
  - destruct (split_path_head n) as (k & ks & ->). cbn [bind].
    destruct (walk L (k :: ks) config (items p n)) as [c'|] eqn:Hw;
      cbn [bind]; [|discriminate].
    apply IH. exact (walk_dict_of_dicts k ks config _ c' Hc Hw).
Qed.

(** Whatever the document, the tree that [parse_config] returns is a dict
    whose entries are all nested dicts: no scalar is ever read at the root
    of the tree. *)
Theorem parse_config_dict_of_dicts (text : string) (T : value) :
  parse_config L text = Ok T ->
  exists d, T = VDict d /\ Forall (fun kv => is_dict (snd kv) = true) d.
Proof.
  unfold parse_config. destruct (read_string L text) as [p|]; [|discriminate].
  intros H. apply build_dict_of_dicts in H; [|constructor].
  destruct T; try contradiction. now exists d.
Qed.

(** *** Sections do not disturb what is beside their path *)

(** The two paths part at some key. *)
Definition diverges (q path : list string) : Prop :=
  exists common k1 k2 r1 r2,
    q = (common ++ k1 :: r1)%list
    /\ path = (common ++ k2 :: r2)%list
    /\ k1 <> k2.

Lemma get_path_empty (k : string) (r : list string) :
  get_path (VDict []) (k :: r) = None.
Proof. reflexivity. Qed.

Lemma walk_frame (its : dict string) (k1 k2 : string) (r1 r2 : list string)
    (common : list string) :
  k1 <> k2 ->
  forall current T,
    walk L (common ++ k2 :: r2) current its = Ok T ->
    get_path T (common ++ k1 :: r1) = get_path current (common ++ k1 :: r1).
Proof.
  intros Hne. induction common as [|c cs IH]; intros current T;
    cbn [app walk get_path].
  - destruct current; try discriminate.
    destruct (dict_get k2 d) as [x|];
      (destruct (walk L r2 _ its); cbn [bind]; [|discriminate]);
      intros [= <-]; now rewrite dict_get_set_other by congruence.
  - destruct current; try discriminate.
    destruct (dict_get c d) as [x|] eqn:Hc.
    + destruct (walk L (cs ++ k2 :: r2) x its) as [child|] eqn:Hw;
        cbn [bind]; [|discriminate].
      intros [= <-]. rewrite dict_get_set_same. exact (IH x child Hw).
    + destruct (walk L (cs ++ k2 :: r2) (VDict []) its) as [child|] eqn:Hw;
        cbn [bind]; [|discriminate].
      intros [= <-]. rewrite dict_get_set_same, (IH _ child Hw).
      destruct cs; reflexivity.
Qed.

(** Processing one more section changes nothing at a path that parts from
    the path of the section. *)
Theorem build_frame
    (p : parser) (done : list string) (section : string)
    (config T : value) (path q : list string) :
  build L p done (VDict []) = Ok config ->
  split_path section = Ok path ->
  diverges q path ->
  build L p (done ++ [section]) (VDict []) = Ok T ->
  get_path T q = get_path config q.
Proof.
  intros Hdone Hsplit (common & k1 & k2 & r1 & r2 & -> & -> & Hne).
  rewrite build_app, Hdone. cbn [bind build]. rewrite Hsplit. cbn [bind].
  destruct (walk L _ config (items p section)) as [c'|] eqn:Hw;
    cbn [bind]; [|discriminate].
  intros [= <-]. exact (walk_frame _ k1 k2 r1 r2 common Hne config c' Hw).
Qed.
End BuilderShape.

Lemma parse_config_dict_of_dicts_witness :
  parse_config CPython.lib (cp_write merge_parser)
  = Ok (VDict [("a", VDict [("b", VInt 2)])])
  /\ exists d,
       VDict [("a", VDict [("b", VInt 2)])] = VDict d
       /\ Forall (fun kv => is_dict (snd kv) = true) d.
Proof.
  split; [reflexivity|].
  apply (parse_config_dict_of_dicts CPython.lib (cp_write merge_parser)).
  reflexivity.
Defined.

Definition siblings_parser : parser :=
  mk_parser [] [("a", [("b", "1")]); ("c.d", [("b", "2")])].

Lemma build_frame_witness :
  build CPython.lib siblings_parser ["a"; "c.d"] (VDict [])
  = Ok (VDict [("a", VDict [("b", VInt 1)]);
               ("c", VDict [("d", VDict [("b", VInt 2)])])])
  /\ get_path (VDict [("a", VDict [("b", VInt 1)]);
                      ("c", VDict [("d", VDict [("b", VInt 2)])])])
       ["a"; "b"]
     = get_path (VDict [("a", VDict [("b", VInt 1)])]) ["a"; "b"].
Proof.
  split; [reflexivity|].
  apply (build_frame CPython.lib siblings_parser ["a"] "c.d"
           (VDict [("a", VDict [("b", VInt 1)])]) _ ["c"; "d"] ["a"; "b"]).
  - reflexivity.
  - reflexivity.
  - exists [], "a", "c", ["b"], ["d"]. repeat split. discriminate.
  - reflexivity.
Defined.

(** *** Merging keeps what a section does not bind *)

Section Merge.
Variable L : pylib.

Lemma eval_items_keys_none (its : dict string) (new : dict value) (k : string) :
  eval_items L its [] = Ok new ->
  dict_get k its = None ->
  dict_get k new = None.
Proof.
  intros Hnew Hk. apply dict_get_none in Hk.
  now rewrite (eval_items_get_other L its k [] new Hnew Hk).
Qed.

(** Two sections whose names decode to the same path: an option that only
    the earlier one binds is still bound, to its decoded value, in the tree
    built from the two. The later section is merged into the node, it does
    not replace it. *)
Theorem merge_keeps_earlier
    (text : string) (p : parser)
    (n1 n2 : string) (opts1 opts2 : dict string)
    (path : list string) (k t1 : string) (v1 : value) :
  read_string L text = Some p ->
  cp_sections p = [(n1, opts1); (n2, opts2)] ->
  NoDup (dict_keys (items p n1)) ->
  split_path n1 = Ok path ->
  split_path n2 = Ok path ->
  dict_get k (items p n1) = Some t1 ->
  dict_get k (items p n2) = None ->
  all_decode L (items p n1) ->
  all_decode L (items p n2) ->
  config_literal_eval L t1 = Ok v1 ->
  exists T,
    parse_config L text = Ok T /\ get_path T (path ++ [k]) = Some v1.
Proof.
  intros Hread Hsec Hnd1 Hs1 Hs2 Hk1 Hk2 Hall1 Hall2 Hv1.
  unfold parse_config. rewrite Hread. unfold sections. rewrite Hsec.
  cbn [dict_keys map fst build]. rewrite Hs1, Hs2. cbn [bind].
  destruct (eval_items_returns L _ Hall1 []) as [new1 Hnew1].
  destruct (eval_items_returns L _ Hall2 []) as [new2 Hnew2].
  destruct (walk_ok L _ new1 path Hnew1 (VDict []) [] (walkable_empty path))
    as (T1 & -> & _ & HT1).
  cbn [bind].
  destruct (walk_ok L _ new2 path Hnew2 T1 _ (get_path_walkable path T1 _ HT1))
    as (T & -> & _ & HT).
  exists T. split; [reflexivity|].
  rewrite (get_path_app path [k] T _ HT). cbn [get_path].
  rewrite dict_update_get
    by (apply (eval_items_NoDup L _ [] new2 Hnew2); constructor).
  rewrite (eval_items_keys_none _ new2 k Hnew2 Hk2).
  rewrite dict_update_get
    by (apply (eval_items_NoDup L _ [] new1 Hnew1); constructor).
  now rewrite (eval_items_get L _ k t1 v1 [] new1 Hnd1 Hk1 Hv1 Hnew1).
Qed.

(** *** Options of the default section *)

(** [parser.items(section)] lists the options of the default section with
    those of the section, so an option of the default section that the
    section does not bind is stored in the node of the section. *)
Theorem defaults_reach_sections
    (text : string) (p : parser) (n : string) (opts : dict string)
    (path : list string) (k t : string) (v : value) :
  read_string L text = Some p ->
  cp_sections p = [(n, opts)] ->
  NoDup (dict_keys (cp_defaults p)) ->
  NoDup (dict_keys opts) ->
  split_path n = Ok path ->
  dict_get k (cp_defaults p) = Some t ->
  dict_get k opts = None ->
  all_decode L (items p n) ->
  config_literal_eval L t = Ok v ->
  exists T,
    parse_config L text = Ok T /\ get_path T (path ++ [k]) = Some v.
Proof.
  intros Hread Hsec Hdef Hopts Hs Hk Hko Hall Hv.
  unfold parse_config. rewrite Hread. unfold sections. rewrite Hsec.
  cbn [dict_keys map fst build]. rewrite Hs. cbn [bind].
  assert (Hit : items p n = dict_update (cp_defaults p) opts).
  { unfold items. rewrite Hsec. cbn [dict_get]. now rewrite String.eqb_refl. }
  destruct (walk_overwrites L (items p n) path (VDict []) [] k t v
              (walkable_empty path) Hall)
    as (T & d & -> & _ & HT).
  - rewrite Hit. now apply dict_update_NoDup.
  - rewrite Hit, dict_update_get by exact Hopts. now rewrite Hko.
  - exact Hv.
  - exists T. split; [reflexivity | exact HT].
Qed.
End Merge.

Definition merge_keeps_parser : parser :=
  mk_parser [] [("a", [("b", "1"); ("c", "2")]); ("'a'", [("b", "2")])].

Definition defaults_parser : parser :=
  mk_parser [("d", "1")] [("a", [("b", "2")])].

Definition type_error_parser : parser :=
  mk_parser [] [("a", [("b", "{[]: 1}")])].

(** The library of the examples, reading three more documents. *)
Definition lib_more : pylib :=
  mk_pylib CPython.literal_eval CPython.json_loads CPython.float_repr
    (fun text =>
       find (fun p => String.eqb (cp_write p) text)
         [merge_keeps_parser; defaults_parser; type_error_parser]).

Lemma merge_keeps_earlier_witness :
  parse_config lib_more (cp_write merge_keeps_parser)
  = Ok (VDict [("a", VDict [("b", VInt 2); ("c", VInt 2)])])
  /\ exists T,
       parse_config lib_more (cp_write merge_keeps_parser) = Ok T
       /\ get_path T (["a"] ++ ["c"]) = Some (VInt 2).
Proof.
  split; [reflexivity|].
  apply (merge_keeps_earlier lib_more (cp_write merge_keeps_parser)
           merge_keeps_parser "a" "'a'" [("b", "1"); ("c", "2")] [("b", "2")]
           ["a"] "c" "2" (VInt 2)).
  - reflexivity.
  - reflexivity.
  - cbn. repeat constructor; cbn; intuition discriminate.
  - reflexivity.
  - reflexivity.
  - reflexivity.
  - reflexivity.
  - repeat constructor; [exists (VInt 1) | exists (VInt 2)]; reflexivity.
  - repeat constructor. exists (VInt 2). reflexivity.
  - reflexivity.
Defined.

Lemma defaults_reach_sections_witness :
  parse_config lib_more (cp_write defaults_parser)
  = Ok (VDict [("a", VDict [("d", VInt 1); ("b", VInt 2)])])
  /\ exists T,
       parse_config lib_more (cp_write defaults_parser) = Ok T
       /\ get_path T (["a"] ++ ["d"]) = Some (VInt 1).
Proof.
  split; [reflexivity|].
  apply (defaults_reach_sections lib_more (cp_write defaults_parser)
           defaults_parser "a" [("b", "2")] ["a"] "d" "1" (VInt 1)).
  - reflexivity.
  - reflexivity.
  - repeat constructor. cbn. tauto.
  - repeat constructor. cbn. tauto.
  - reflexivity.
  - reflexivity.
  - reflexivity.
  - repeat constructor; [exists (VInt 1) | exists (VInt 2)]; reflexivity.
  - reflexivity.
Defined.

(** ** Reading a document back and writing it again *)

Lemma wf_tree_intro (d : tree) :
  NoDup (dict_keys d) ->
  Forall (fun kv => wf_tree (snd kv)) d ->
  wf_tree (VDict d).
Proof.
  intros Hk H. split; [exact Hk|]. clear Hk.
  induction H as [|[k x] d Hx _ IH]; [exact I | now split].
Qed.

Lemma leaves_idem (d : tree) : leaves (leaves d) = leaves d.
Proof.
  unfold leaves. induction d as [|[k v] d IH]; cbn; [reflexivity|].
  destruct (is_dict v) eqn:E; cbn; [exact IH|]. now rewrite E, IH.
Qed.

Lemma preorder_children_app
    (f : value -> list string -> section_map) (path : list string)
    (a b : tree) :
  preorder_children f path (a ++ b)%list
  = (preorder_children f path a ++ preorder_children f path b)%list.
Proof.
  induction a as [|[k v] a IH]; cbn; [reflexivity|].
  now rewrite IH, app_assoc.
Qed.

Lemma preorder_children_leaves
    (f : value -> list string -> section_map) (path : list string) (d : tree) :
  preorder_children f path (leaves d) = [].
Proof.
  unfold leaves. induction d as [|[k v] d IH]; cbn; [reflexivity|].
  destruct (is_dict v) eqn:E; cbn; [exact IH|]. now rewrite E, IH.
Qed.

Section Redump.
Variable L : pylib.

(** The leaves of the node are read back as the very values they are. *)
Definition node_exact (d : tree) : Prop :=
  Forall (fun kv => is_dict (snd kv) = false ->
                    decode_leaf L (snd kv) = snd kv) d.

Lemma decoded_leaves_exact (d : tree) :
  node_exact d -> decoded_section L (leaves d) = leaves d.
Proof.
  unfold node_exact, leaves, decoded_section.
  induction 1 as [|[k v] d Hv _ IH]; cbn; [reflexivity|].
  destruct (is_dict v) eqn:E; cbn; [exact IH|].
  cbn [snd] in Hv. now rewrite (Hv E), IH.
Qed.

Lemma rebuilt_is_dict (v : value) : is_dict (rebuilt L v) = is_dict v.
Proof. destruct v; reflexivity. Qed.

Lemma leaves_rebuilt_children (d : tree) :
  leaves (rebuilt_children (rebuilt L) d) = [].
Proof.
  unfold leaves. induction d as [|[k v] d IH]; cbn; [reflexivity|].
  destruct (is_dict v) eqn:E; cbn; [|exact IH].
  now rewrite rebuilt_is_dict, E.
Qed.

Lemma rebuilt_children_keys (d : tree) :
  dict_keys (rebuilt_children (rebuilt L) d) = dict_keys (subtrees d).
Proof.
  unfold subtrees, dict_keys. induction d as [|[k v] d IH]; cbn; [reflexivity|].
  destruct (is_dict v); cbn; now rewrite IH.
Qed.

Lemma rebuilt_node (d : tree) :
  node_exact d ->
  rebuilt L (VDict d)
  = VDict (leaves d ++ rebuilt_children (rebuilt L) d)%list.
Proof. intros H. cbn [rebuilt]. now rewrite (decoded_leaves_exact d H). Qed.

(** The rebuilt tree has the sections of the tree. *)
Lemma preorder_rebuilt (v : value) :
  forall path,
    tree_all node_exact v -> preorder (rebuilt L v) path = preorder v path.
Proof.
  induction v as [v Hv | d IH] using tree_ind; intros path Hall.
  - destruct v; try discriminate Hv; reflexivity.
  - apply tree_all_node in Hall as [Hex Hall].
    rewrite (rebuilt_node d Hex). cbn [preorder].
    unfold leaves at 1. rewrite filter_app. fold (leaves (leaves d)).
    fold (leaves (rebuilt_children (rebuilt L) d)).
    rewrite leaves_idem, leaves_rebuilt_children, app_nil_r.
    f_equal. rewrite preorder_children_app, preorder_children_leaves.
    cbn [app]. clear Hex.
    induction IH as [|[k x] d Hx _ IHd]; [reflexivity|].
    inversion Hall as [|? ? Hax Had]; subst.
    cbn [preorder_children rebuilt_children].
    destruct (is_dict x) eqn:E.
    + cbn [preorder_children]. rewrite rebuilt_is_dict, E.
      now rewrite (Hx _ Hax), (IHd Had).
    + cbn [app]. exact (IHd Had).
Qed.

Lemma rebuilt_wf (v : value) :
  wf_tree v -> tree_all node_exact v -> wf_tree (rebuilt L v).
Proof.
  induction v as [v Hv | d IH] using tree_ind; intros Hwf Hall.
  - destruct v; try discriminate Hv; exact I.
  - apply tree_all_node in Hall as [Hex Hall].
    pose proof (wf_tree_children d Hwf) as Hch. destruct Hwf as [Hk _].
    rewrite (rebuilt_node d Hex). apply wf_tree_intro.
    + unfold dict_keys. rewrite map_app.
      fold (dict_keys (leaves d)).
      fold (dict_keys (rebuilt_children (rebuilt L) d)).
      rewrite rebuilt_children_keys. now apply leaves_subtrees_NoDup.
    + apply Forall_app. split.
      * unfold leaves. clear. induction d as [|[k v] d IHd]; cbn; [constructor|].
        destruct (is_dict v) eqn:E; cbn; [exact IHd|].
        constructor; [|exact IHd]. cbn [snd]. destruct v; try discriminate E; exact I.
      * clear Hk Hex.
        induction IH as [|[k x] d Hx _ IHd]; [constructor|].
        inversion Hall as [|? ? Hax Had]; subst.
        inversion Hch as [|? ? Hwx Hwd]; subst.
        cbn [rebuilt_children].
        destruct (is_dict x); [constructor|]; auto.
Qed.

(** Reading back what [_dump] wrote and dumping that again writes the same
    text: under the conditions of the round trip, when moreover every leaf
    is read back as the very value it is, the tree that [parse_config]
    returns has the sections of the tree, in the same order, and [_dump]
    writes for it the text it was read from. *)
Theorem dump_parse_dump (t : tree) :
  tree_all (node_ok L) (VDict t) ->
  tree_all node_exact (VDict t) ->
  leaves t = [] ->
  dict_get "DEFAULT" t = None ->
  (let p := mk_parser [] (dumped_sections L (flatten_sections t)) in
   read_string L (cp_write p) = Some p) ->
  exists text T,
    _dump L t = Ok text
    /\ parse_config L text = Ok (VDict T)
    /\ flatten_sections T = flatten_sections t
    /\ _dump L T = Ok text.
Proof.
  intros Hall Hex Hleaves Hdef Hread.
  destruct (section_names_ok L t Hall Hdef) as [Hnd Hnames].
  destruct (dump_then_parse L t Hall Hleaves Hnd Hnames Hread) as [Hd Hp].
  pose proof (node_ok_wf L _ Hall) as Hwf.
  pose proof (rebuilt_wf (VDict t) Hwf Hex) as Hwf'.
  pose proof (preorder_rebuilt (VDict t) [] Hex) as Hpre.
  apply tree_all_node in Hex as [Hex0 _].
  rewrite (rebuilt_node t Hex0) in Hp, Hwf', Hpre.
  assert (Hflat : flatten_sections
                    (leaves t ++ rebuilt_children (rebuilt L) t)%list
                  = flatten_sections t).
  { rewrite (flatten_sections_spec _ Hwf') by (rewrite Hpre; exact Hnd).
    rewrite (flatten_sections_spec t Hwf Hnd).
    cbn [preorder] in Hpre. now injection Hpre. }
  eexists. eexists. split; [exact Hd|]. split; [exact Hp|].
  split; [exact Hflat|]. unfold _dump in *. now rewrite Hflat.
Qed.
End Redump.

Lemma dump_parse_dump_witness :
  parse_config CPython.lib
    (cp_write (mk_parser []
       [("x", []); ("x.y", [("z", "1"); ("w", CPython.quoted "1")])]))
  = Ok (VDict scenario_tree)
  /\ exists text T,
       _dump CPython.lib scenario_tree = Ok text
       /\ parse_config CPython.lib text = Ok (VDict T)
       /\ flatten_sections T = flatten_sections scenario_tree
       /\ _dump CPython.lib T = Ok text.
Proof.
  split; [reflexivity|].
  apply (dump_parse_dump CPython.lib scenario_tree).
  - cbn. unfold node_ok, entry_ok. cbn.
    repeat split; repeat constructor; cbn; try tauto; try intuition discriminate.
    + exists "1", (VInt 1). repeat split.
    + exists (CPython.quoted "1"), (VStr "1"). repeat split.
  - cbn. unfold node_exact. repeat split; repeat constructor;
      cbn; intros H; first [discriminate H | reflexivity].
  - reflexivity.
  - reflexivity.
  - reflexivity.
Defined.

(** ** Errors of the decoder in a document *)

Section DecoderErrors.
Variable L : pylib.

Lemma eval_items_raises (its : dict string) (k t : string) (e : exn) :
  In (k, t) its -> config_literal_eval L t = Raise e ->
  forall acc, exists e', eval_items L its acc = Raise e'.
Proof.
  intros Hin He. induction its as [|[k0 t0] its IH]; intros acc;
    [contradiction|].
  cbn [eval_items]. destruct Hin as [E|Hin].
  - injection E as -> ->. rewrite He. cbn [bind]. eauto.
  - destruct (config_literal_eval L t0); cbn [bind]; [now apply IH | eauto].
Qed.

Lemma walk_raises (its : dict string) (parts : list string) :
  (exists e, eval_items L its [] = Raise e) ->
  forall current, exists e, walk L parts current its = Raise e.
Proof.
  intros [e He]. induction parts as [|k parts IH]; intros current; cbn [walk].
  - destruct current; try (now eexists); rewrite He; cbn [bind]; eauto.
  - destruct current; try (now eexists).
    destruct (dict_get k d) as [c|].
    + destruct (IH c) as [e' ->]. cbn [bind]. eauto.
    + destruct (IH (VDict [])) as [e' ->]. cbn [bind]. eauto.
Qed.

Lemma build_raises (p : parser) (n k t : string) (e : exn)
    (names : list string) :
  In n names -> In (k, t) (items p n) -> config_literal_eval L t = Raise e ->
  forall config, exists e', build L p names config = Raise e'.
Proof.
  intros Hn Hin He. induction names as [|n0 names IH]; intros config;
    [contradiction|].
  cbn [build]. destruct (split_path_head n0) as (k0 & ks & ->). cbn [bind].
  destruct Hn as [->|Hn].
  - destruct (walk_raises (items p n) (k0 :: ks)
                (eval_items_raises _ k t e Hin He []) config) as [e' ->].
    cbn [bind]. eauto.
  - destruct (walk L (k0 :: ks) config (items p n0)); cbn [bind];
      [now apply IH | eauto].
Qed.

(** One option whose text makes the decoder raise is enough for the whole
    document to be refused: [parse_config] raises, whatever else the
    document holds. *)
Theorem parse_config_decoder_error
    (text : string) (p : parser) (n k t : string) (e : exn) :
  read_string L text = Some p ->
  In n (sections p) ->
  In (k, t) (items p n) ->
  config_literal_eval L t = Raise e ->
  exists e', parse_config L text = Raise e'.
Proof.
  intros Hread Hn Hin He. unfold parse_config. rewrite Hread.
  exact (build_raises p n k t e (sections p) Hn Hin He (VDict [])).
Qed.
End DecoderErrors.

Lemma parse_config_decoder_error_witness :
  parse_config lib_more (cp_write type_error_parser) = Raise TypeError
  /\ exists e', parse_config lib_more (cp_write type_error_parser) = Raise e'.
Proof.
  split; [reflexivity|].
  apply (parse_config_decoder_error lib_more (cp_write type_error_parser)
           type_error_parser "a" "b" "{[]: 1}" TypeError).
  - reflexivity.
  - now left.
  - now left.
  - reflexivity.
Defined.

(** ** Names of nested sections *)

(** The name of a node is the name of its parent, a dot, and its own key as
    [join_path] writes it. *)
Theorem join_path_child (path : list string) (k : string) :
  path <> [] ->
  join_path (path ++ [k]) = join_path path ++ "." ++ join_key k.
Proof.
  intros Hne. induction path as [|x path IH]; [contradiction|].
  destruct path as [|y path]; [reflexivity|].
  change ((x :: y :: path) ++ [k])%list with (x :: (y :: path) ++ [k])%list.
  cbn [app]. rewrite (join_path_cons x y (path ++ [k])).
  change (y :: path ++ [k])%list with ((y :: path) ++ [k])%list.
  rewrite IH by discriminate. rewrite join_path_cons.
  rewrite !str_app_assoc. reflexivity.
Qed.

Lemma join_path_child_witness :
  join_path (["a"; "b.c"] ++ ["d"]) = join_path ["a"; "b.c"] ++ "." ++ join_key "d"
  /\ join_path ["a"; "b.c"; "d"] = "a.'b.c'.d".
Proof.
  split; [|reflexivity].
  apply (join_path_child ["a"; "b.c"] "d"). discriminate.
Defined.

(** *** The names that [flatten_sections] emits *)

Lemma dict_pop_keys_iff (V : Type) (k name : string) (d : dict V) :
  NoDup (dict_keys d) ->
  In name (dict_keys (dict_pop k d)) <-> name <> k /\ In name (dict_keys d).
Proof.
  induction d as [|[k0 v0] d IH]; intros Hnd; cbn; [tauto|].
  inversion Hnd as [|? ? Hk0 Hd]; subst.
  destruct (String.eqb_spec k0 k) as [->|Hne]; cbn.
  - split.
    + intros H. split; [intros E; subst; contradiction | now right].
    + intros [Hn [E|H]]; [congruence | exact H].
  - rewrite (IH Hd). split.
    + intros [E|[Hn H]]; [subst; split; [congruence | now left] | tauto].
    + intros [Hn [E|H]]; [now left | right; tauto].
Qed.

Lemma dict_set_keys_iff (V : Type) (k name : string) (v : V) (d : dict V) :
  In name (dict_keys (dict_set k v d)) <-> name = k \/ In name (dict_keys d).
Proof.
  rewrite dict_set_keys. destruct (dict_mem k d) eqn:E.
  - split; [tauto|]. intros [->|H]; [|exact H].
    unfold dict_mem in E. destruct (dict_get k d) as [x|] eqn:G; [|discriminate].
    apply dict_get_some_in in G. now apply (in_map fst) in G.
  - rewrite in_app_iff. cbn. split; [intros [H|[<-|[]]]; tauto|].
    intros [->|H]; [right; now left | now left].
Qed.

Lemma dict_mem_true (V : Type) (k : string) (d : dict V) :
  dict_mem k d = true -> In k (dict_keys d).
Proof.
  intros H. destruct (in_dec string_dec k (dict_keys d)) as [Hin|Hout];
    [exact Hin|].
  apply dict_mem_false in Hout. congruence.
Qed.

Lemma rec_loop_names (path : list string) (d : tree) (name : string) :
  Forall (fun kv => forall path res,
            In name (dict_keys (rec (snd kv) path res))
            <-> In name (dict_keys res)
                \/ In name (map join_path (node_paths (snd kv) path))) d ->
  forall res sec,
    In name (dict_keys (fst (rec_loop rec path d res sec)))
    <-> In name (dict_keys res)
        \/ In name (map join_path (children_paths node_paths path d)).
Proof.
  induction 1 as [|[k v] d Hv _ IH]; intros res sec;
    cbn [rec_loop children_paths].
  - cbn. tauto.
  - rewrite map_app, in_app_iff. destruct (is_dict v).
    + rewrite IH, Hv. cbn [snd]. tauto.
    + rewrite IH. cbn. tauto.
Qed.

Lemma rec_names (name : string) (v : value) :
  forall path res,
    In name (dict_keys (rec v path res))
    <-> In name (dict_keys res)
        \/ In name (map join_path (node_paths v path)).
Proof.
  induction v as [v Hv | d IH] using tree_ind; intros path res.
  - destruct v; try discriminate Hv; cbn; tauto.
  - cbn [rec node_paths map].
    pose proof (rec_loop_names path d name IH
                  (dict_setdefault (join_path path) [] res) []) as H.
    destruct (rec_loop rec path d _ []) as [res2 section]. cbn [fst] in H.
    rewrite dict_set_keys_iff, H. unfold dict_setdefault.
    match goal with
    | |- context [@dict_mem ?V ?k ?r] => destruct (@dict_mem V k r) eqn:E
    end.
    + apply dict_mem_true in E.
      cbn. split; [intros [->|[?|?]]; tauto | intros [?|[<-|?]]; tauto].
    + rewrite dict_set_keys_iff. cbn.
      split; [intros [->|[[->|?]|?]]; tauto | intros [?|[<-|?]]; tauto].
Qed.

(** Whatever the tree, the names of the emitted sections are the encoded
    paths of its dicts, the root included, that are not the empty name: no
    name is invented and none but the empty one is left out. *)
Theorem flatten_sections_names (t : tree) (name : string) :
  In name (dict_keys (flatten_sections t))
  <-> name <> "" /\ In name (map join_path (node_paths (VDict t) [])).
Proof.
  unfold flatten_sections.
  rewrite dict_pop_keys_iff by (apply rec_NoDup; constructor).
  rewrite rec_names. cbn [dict_keys map In]. tauto.
Qed.

(** ** Errors of the encoder in a tree *)

Section EncoderErrors.
Variable L : pylib.

Lemma dump_items_raises (sec : dict value) (k : string) (v : value) (e : exn) :
  In (k, v) sec -> config_literal_dump L v = Raise e ->
  forall acc, exists e', dump_items L sec acc = Raise e'.
Proof.
  intros Hin He. induction sec as [|[k0 v0] sec IH]; intros acc;
    [contradiction|].
  cbn [dump_items]. destruct Hin as [E|Hin].
  - injection E as -> ->. rewrite He. cbn [bind]. eauto.
  - destruct (config_literal_dump L v0); cbn [bind]; [now apply IH | eauto].
Qed.

Lemma dump_sections_raises (secs : section_map) (name : string)
    (sec : dict value) (k : string) (v : value) (e : exn) :
  In (name, sec) secs -> In (k, v) sec -> config_literal_dump L v = Raise e ->
  forall p, exists e', dump_sections L secs p = Raise e'.
Proof.
  intros Hs Hin He. induction secs as [|[n0 s0] secs IH]; intros p;
    [contradiction|].
  cbn [dump_sections].
  destruct (add_section n0 p) as [p1|]; cbn [bind]; [|eauto].
  destruct Hs as [E|Hs].
  - injection E as -> ->.
    destruct (dump_items_raises sec k v e Hin He []) as [e' ->].
    cbn [bind]. eauto.
  - destruct (dump_items L s0 []); cbn [bind]; [now apply IH | eauto].
Qed.

(** One leaf of an emitted section that [config_literal_dump] cannot write
    is enough for [_dump] to raise: no part of the tree is written. *)
Theorem dump_encoder_error
    (t : tree) (name : string) (sec : dict value) (k : string) (v : value)
    (e : exn) :
  In (name, sec) (flatten_sections t) ->
  In (k, v) sec ->
  config_literal_dump L v = Raise e ->
  exists e', _dump L t = Raise e'.
Proof.
  intros Hs Hin He.
  destruct (dump_sections_raises _ name sec k v e Hs Hin He empty_parser)
    as [e' He'].
  exists e'. unfold _dump. now rewrite He'.
Qed.
End EncoderErrors.

Lemma dump_encoder_error_witness :
  _dump CPython.lib
    [("a", VDict [("n", VInt 1)]); ("b", VDict [("s", VSet [VInt 1])])]
  = Raise TypeError
  /\ exists e',
       _dump CPython.lib
         [("a", VDict [("n", VInt 1)]); ("b", VDict [("s", VSet [VInt 1])])]
       = Raise e'.
Proof.
  split; [reflexivity|].
  apply (dump_encoder_error CPython.lib _ "b" [("s", VSet [VInt 1])] "s"
           (VSet [VInt 1]) TypeError).
  - right. now left.
  - now left.
  - reflexivity.
Defined.

(** ** A document of one section *)

Section OneSection.
Variable L : pylib.

Lemma eval_items_get_inv (its : dict string) (new : dict value) (k : string) :
  NoDup (dict_keys its) ->
  all_decode L its ->
  eval_items L its [] = Ok new ->
  match dict_get k its with
  | Some t => exists v, config_literal_eval L t = Ok v /\ dict_get k new = Some v
  | None => dict_get k new = None
  end.
Proof.
  intros Hnd Hall Hnew. destruct (dict_get k its) as [t|] eqn:Hk.
  - unfold all_decode in Hall. rewrite Forall_forall in Hall.
    destruct (Hall _ (dict_get_some_in _ k t its Hk)) as [v Hv]. cbn [snd] in Hv.
    exists v. split; [exact Hv|].
    exact (eval_items_get L its k t v [] new Hnd Hk Hv Hnew).
  - apply dict_get_none in Hk.
    now rewrite (eval_items_get_other L its k [] new Hnew Hk).
Qed.

(** A document of one section whose options all decode is read as the tree
    that has, at the decoded path of the section, a dict binding every
    option to its decoded value and nothing else. *)
Theorem one_section_stored
    (text : string) (p : parser) (n : string) (opts : dict string)
    (path : list string) :
  read_string L text = Some p ->
  cp_sections p = [(n, opts)] ->
  NoDup (dict_keys (items p n)) ->
  split_path n = Ok path ->
  all_decode L (items p n) ->
  exists T d,
    parse_config L text = Ok T
    /\ get_path T path = Some (VDict d)
    /\ forall k,
         match dict_get k (items p n) with
         | Some t => exists v, config_literal_eval L t = Ok v
                               /\ get_path T (path ++ [k]) = Some v
         | None => get_path T (path ++ [k]) = None
         end.
Proof.
  intros Hread Hsec Hnd Hs Hall.
  unfold parse_config. rewrite Hread. unfold sections. rewrite Hsec.
  cbn [dict_keys map fst build]. rewrite Hs. cbn [bind].
  destruct (eval_items_returns L _ Hall []) as [new Hnew].
  destruct (walk_ok L _ new path Hnew (VDict []) [] (walkable_empty path))
    as (T & -> & _ & HT).
  assert (Hn : NoDup (dict_keys new))
    by (apply (eval_items_NoDup L _ [] new Hnew); constructor).
  rewrite (dict_update_nil _ new Hn) in HT.
  exists T, new. split; [reflexivity|]. split; [exact HT|].
  intros k. rewrite (get_path_app path [k] T _ HT). cbn [get_path].
  pose proof (eval_items_get_inv _ new k Hnd Hall Hnew) as H.
  destruct (dict_get k (items p n)) as [t|].
  - destruct H as (v & Hv & ->). now exists v.
  - now rewrite H.
Qed.
End OneSection.

Definition one_section_parser : parser :=
  mk_parser [] [("x.y", [("z", "1"); ("w", CPython.quoted "1")])].

Lemma one_section_stored_witness :
  parse_config CPython.lib (cp_write one_section_parser) = Ok (VDict scenario_tree)
  /\ exists T d,
       parse_config CPython.lib (cp_write one_section_parser) = Ok T
       /\ get_path T ["x"; "y"] = Some (VDict d)
       /\ forall k,
            match dict_get k (items one_section_parser "x.y") with
            | Some t => exists v, config_literal_eval CPython.lib t = Ok v
                                  /\ get_path T (["x"; "y"] ++ [k]) = Some v
            | None => get_path T (["x"; "y"] ++ [k]) = None
            end.
Proof.
  split; [reflexivity|].
  apply (one_section_stored CPython.lib (cp_write one_section_parser)
           one_section_parser "x.y" [("z", "1"); ("w", CPython.quoted "1")]).
  - reflexivity.
  - reflexivity.
  - cbn. repeat constructor; cbn; intuition discriminate.
  - reflexivity.
  - repeat constructor; [exists (VInt 1) | exists (VStr "1")]; reflexivity.
Defined.

(** * Merge precedence (C8)

    The sections of a document are processed in the order of the document,
    whatever stands before, between and after the two sections of the
    claim. *)

Section Precedence.
Variable L : pylib.

(** What the tree holds for key [k] under [path]: the value [v], or, when
    [path] leads to a set, the key itself as a member of the set. *)
Definition stored (T : value) (path : list string) (k : string) (v : value)
  : Prop :=
  get_path T (path ++ [k])%list = Some v
  \/ exists l,
       get_path T path = Some (VSet l)
       /\ existsb (py_eq (VStr k)) l = true.

(** A section that leaves the key [k] under [path] alone: its path parts
    from [path ++ [k]] at some segment, or stops before the end of it at a
    node in which the section does not bind the next segment. *)
Definition leaves_alone (p : parser) (path : list string) (k : string)
    (m : string) : Prop :=
  exists q,
    split_path m = Ok q
    /\ (diverges q (path ++ [k])%list
        \/ exists c r,
             (path ++ [k] = q ++ c :: r)%list
             /\ dict_get c (items p m) = None).

Lemma items_NoDup (p : parser) (n : string) :
  NoDup (dict_keys (cp_defaults p)) -> NoDup (dict_keys (items p n)).
Proof.
  intros H. unfold items. destruct (dict_get n (cp_sections p)); [|exact H].
  now apply dict_update_NoDup.
Qed.

Lemma eval_items_decodes (its : dict string) (k t : string) :
  forall acc new,
    eval_items L its acc = Ok new ->
    dict_get k its = Some t ->
    exists v, config_literal_eval L t = Ok v.
Proof.
  induction its as [|[k0 t0] its IH]; intros acc new H Hk; cbn in *;
    [discriminate Hk|].
  destruct (config_literal_eval L t0) as [v0|e] eqn:E0; [|discriminate H].
  cbn in H. destruct (String.eqb k0 k).
  - injection Hk as <-. eauto.
  - exact (IH _ _ H Hk).
Qed.

Lemma set_update_keeps (x : value) (keys : list string) :
  forall l, existsb (py_eq x) l = true ->
            existsb (py_eq x) (set_update l keys) = true.
Proof.
  unfold set_update.
  induction keys as [|k keys IH]; intros l H; cbn [fold_left]; [exact H|].
  apply IH. destruct (existsb (py_eq (VStr k)) l); [exact H|].
  rewrite existsb_app, H. reflexivity.
Qed.

Lemma set_update_adds (k : string) (keys : list string) :
  forall l, In k keys ->
            existsb (py_eq (VStr k)) (set_update l keys) = true.
Proof.
  induction keys as [|k0 keys IH]; intros l H; [contradiction|].
  unfold set_update. cbn [fold_left].
  destruct H as [->|H]; [|now apply IH].
  apply (set_update_keeps (VStr k) keys).
  destruct (existsb (py_eq (VStr k)) l) eqn:E; [exact E|].
  rewrite existsb_app. cbn. rewrite String.eqb_refl. now rewrite orb_true_r.
Qed.

(** The section that binds [k]: after its walk the tree stores the decoded
    text of [k]. *)
Lemma walk_stores (its : dict string) (k t : string) (path : list string) :
  NoDup (dict_keys its) ->
  dict_get k its = Some t ->
  forall current T,
    walk L path current its = Ok T ->
    exists v, config_literal_eval L t = Ok v /\ stored T path k v.
Proof.
  intros Hnd Hk. induction path as [|s path IH]; intros current T;
    cbn [walk].
  - destruct current; try discriminate.
    + destruct (eval_items L its []) as [new|] eqn:Hnew; cbn [bind];
        [|discriminate].
      intros [= <-].
      destruct (eval_items_decodes its k t [] new Hnew Hk) as [v Hv].
      exists v. split; [exact Hv|]. right. exists (set_update l (dict_keys new)).
      split; [reflexivity|]. apply set_update_adds.
      pose proof (eval_items_get L its k t v [] new Hnd Hk Hv Hnew) as Hg.
      destruct (in_dec string_dec k (dict_keys new)) as [Hin|Hin];
        [exact Hin|].
      apply dict_get_none in Hin. congruence.
    + destruct (eval_items L its []) as [new|] eqn:Hnew; cbn [bind];
        [|discriminate].
      intros [= <-].
      destruct (eval_items_decodes its k t [] new Hnew Hk) as [v Hv].
      exists v. split; [exact Hv|]. left. cbn [app get_path].
      rewrite dict_update_get
        by (apply (eval_items_NoDup L its [] new Hnew); constructor).
      now rewrite (eval_items_get L its k t v [] new Hnd Hk Hv Hnew).
  - destruct current; try discriminate.
    destruct (dict_get s d) as [c|].
    + destruct (walk L path c its) as [child|] eqn:Hw; cbn [bind];
        [|discriminate].
      intros [= <-]. destruct (IH c child Hw) as (v & Hv & Hst).
      exists v. split; [exact Hv|].
      destruct Hst as [Hst|(l0 & Hl & Hm)]; [left|right].
      * cbn [app get_path]. now rewrite dict_get_set_same.
      * exists l0. cbn [get_path]. now rewrite dict_get_set_same.
    + destruct (walk L path (VDict []) its) as [child|] eqn:Hw; cbn [bind];
        [|discriminate].
      intros [= <-]. destruct (IH _ child Hw) as (v & Hv & Hst).
      exists v. split; [exact Hv|].
      destruct Hst as [Hst|(l0 & Hl & Hm)]; [left|right].
      * cbn [app get_path]. now rewrite dict_get_set_same.
      * exists l0. cbn [get_path]. now rewrite dict_get_set_same.
Qed.

(** A section whose path stops at a node where it does not bind [c] changes
    nothing below [c]. *)
Lemma walk_prefix_frame (its : dict string) (c : string) (r : list string)
    (q : list string) :
  dict_get c its = None ->
  forall current T,
    walk L q current its = Ok T ->
    get_path T (q ++ c :: r) = get_path current (q ++ c :: r).
Proof.
  intros Hc. induction q as [|s q IH]; intros current T; cbn [walk app].
  - destruct current; try discriminate.
    + destruct (eval_items L its []) as [new|]; cbn [bind]; [|discriminate].
      now intros [= <-].
    + destruct (eval_items L its []) as [new|] eqn:Hnew; cbn [bind];
        [|discriminate].
      intros [= <-]. cbn [get_path].
      rewrite dict_update_get
        by (apply (eval_items_NoDup L its [] new Hnew); constructor).
      apply dict_get_none in Hc.
      now rewrite (eval_items_get_other L its c [] new Hnew Hc).
  - destruct current; try discriminate. cbn [get_path].
    destruct (dict_get s d) as [x|] eqn:Hs.
    + destruct (walk L q x its) as [child|] eqn:Hw; cbn [bind];
        [|discriminate].
      intros [= <-]. rewrite dict_get_set_same. exact (IH x child Hw).
    + destruct (walk L q (VDict []) its) as [child|] eqn:Hw; cbn [bind];
        [|discriminate].
      intros [= <-]. rewrite dict_get_set_same, (IH _ child Hw).
      destruct q; reflexivity.
Qed.

(** A walk that ends at a set leaves a set with the members it had. *)
Lemma walk_set_end (its : dict string) (path : list string) :
  forall current T l,
    get_path current path = Some (VSet l) ->
    walk L path current its = Ok T ->
    exists l',
      get_path T path = Some (VSet l')
      /\ forall x, existsb (py_eq x) l = true -> existsb (py_eq x) l' = true.
Proof.
  induction path as [|s path IH]; intros current T l; cbn [get_path walk].
  - intros [= ->].
    destruct (eval_items L its []) as [new|]; cbn [bind]; [|discriminate].
    intros [= <-]. eexists. split; [reflexivity|].
    intros x. apply set_update_keeps.
  - destruct current; try discriminate.
    destruct (dict_get s d) as [c|]; [|discriminate].
    intros Hg.
    destruct (walk L path c its) as [child|] eqn:Hw; cbn [bind];
      [|discriminate].
    intros [= <-]. rewrite dict_get_set_same. exact (IH c child l Hg Hw).
Qed.

Lemma app_last_split (path q r : list string) (k c : string) :
  (path ++ [k] = q ++ c :: r)%list ->
  (r = [] /\ q = path /\ c = k)
  \/ exists r', r = (r' ++ [k])%list /\ path = (q ++ c :: r')%list.
Proof.
  destruct r as [|x r0] using rev_ind; intros H.
  - left. apply app_inj_tail in H. destruct H as [-> ->]. auto.
  - right. clear IHr0. exists r0.
    replace (q ++ c :: r0 ++ [x])%list
      with ((q ++ c :: r0) ++ [x])%list in H by now rewrite <- app_assoc.
    apply app_inj_tail in H. destruct H as [-> ->]. auto.
Qed.

(** One more section that leaves the key alone. *)
Lemma walk_keeps_stored (its : dict string) (q path : list string)
    (k : string) (v : value) (current T : value) :
  (diverges q (path ++ [k])%list
   \/ exists c r, (path ++ [k] = q ++ c :: r)%list /\ dict_get c its = None) ->
  walk L q current its = Ok T ->
  stored current path k v ->
  stored T path k v.
Proof.
  intros Hq Hw [Hst|(l & Hl & Hm)].
  - left. destruct Hq as [Hd|(c & r & E & Hc)].
    + destruct Hd as (common & k1 & k2 & r1 & r2 & -> & E & Hne).
      rewrite E in *.
      rewrite (walk_frame L its k2 k1 r2 r1 common (not_eq_sym Hne) current T Hw).
      exact Hst.
    + rewrite E in *.
      now rewrite (walk_prefix_frame its c r q Hc current T Hw).
  - right. destruct Hq as [Hd|(c & r & E & Hc)].
    + destruct Hd as (common & k1 & k2 & r1 & r2 & -> & E & Hne).
      symmetry in E.
      destruct (app_last_split path common r2 k k2 (eq_sym E))
        as [(-> & -> & ->)|(r' & -> & ->)].
      * rewrite (walk_conflict_inside L its path current (VSet l) k1 r1 Hl
                   eq_refl) in Hw. discriminate Hw.
      * exists l. split; [|exact Hm].
        rewrite (walk_frame L its k2 k1 r' r1 common (not_eq_sym Hne)
                   current T Hw).
        exact Hl.
    + destruct (app_last_split path q r k c E)
        as [(-> & -> & ->)|(r' & -> & ->)].
      * destruct (walk_set_end its path current T l Hl Hw) as (l' & Hl' & Hk).
        exists l'. split; [exact Hl' | now apply Hk].
      * exists l. split; [|exact Hm].
        now rewrite (walk_prefix_frame its c r' q Hc current T Hw).
Qed.

Lemma build_keeps_stored (p : parser) (path : list string) (k : string)
    (v : value) (post : list string) :
  Forall (leaves_alone p path k) post ->
  forall config T,
    build L p post config = Ok T ->
    stored config path k v ->
    stored T path k v.
Proof.
  induction 1 as [|m post (q & Hq & Hm) _ IH]; intros config T; cbn [build].
  - now intros [= <-].
  - rewrite Hq. cbn [bind].
    destruct (walk L q config (items p m)) as [c'|] eqn:Hw; cbn [bind];
      [|discriminate].
    intros HT Hst. apply (IH c' T HT).
    exact (walk_keeps_stored (items p m) q path k v config c' Hm Hw Hst).
Qed.

End Precedence.

(** The path that a section name decodes to. *)
Definition path_of (n : string) : list string :=
  match split_path n with
  | Ok q => q
  | Raise _ => []
  end.

Fixpoint is_prefix (a b : list string) : bool :=
  match a, b with
  | [], _ => true
  | x :: a', y :: b' => String.eqb x y && is_prefix a' b'
  | _ :: _, [] => false
  end.

(** The path of [m] runs through an option that the section [n] binds. *)
Definition runs_through (p : parser) (n m : string) : bool :=
  existsb (fun c => is_prefix (path_of n ++ [c])%list (path_of m))
    (dict_keys (items p n)).

(** No section walks through an option of a section before it: the document
    has no structural conflict. *)
Fixpoint conflict_free (p : parser) (names : list string) : bool :=
  match names with
  | [] => true
  | n :: rest =>
      forallb (fun m => negb (runs_through p n m)) rest
      && conflict_free p rest
  end.

Section Total.
Variable L : pylib.

Lemma split_path_path_of (n : string) : split_path n = Ok (path_of n).
Proof.
  unfold path_of. destruct (split_path_head n) as (k & ks & ->). reflexivity.
Qed.

(** Nothing but dicts stands on [q] in [C]. *)
Definition clear (C : value) (q : list string) : Prop :=
  exists d0, walkable C q = Some d0.

Lemma walk_keeps_clear (its : dict string) (q0 : list string) :
  forall (q : list string) (C C' : value),
    (forall c, In c (dict_keys its) -> is_prefix (q0 ++ [c])%list q = false) ->
    clear C q ->
    walk L q0 C its = Ok C' ->
    clear C' q.
Proof.
  induction q0 as [|s q0 IH]; intros q C C' Hfree [d0 Hq]; cbn [walk].
  - destruct C; try (destruct q; discriminate Hq).
    destruct (eval_items L its []) as [new|] eqn:Hnew; cbn [bind];
      [|discriminate].
    intros [= <-]. destruct q as [|c q]; [eexists; reflexivity|].
    unfold clear. cbn [walkable] in *.
    assert (Hc : ~ In c (dict_keys its)).
    { intros Hin. specialize (Hfree c Hin). cbn in Hfree.
      now rewrite String.eqb_refl in Hfree. }
    rewrite dict_update_get
      by (apply (eval_items_NoDup L its [] new Hnew); constructor).
    rewrite (eval_items_get_other L its c [] new Hnew Hc). cbn [dict_get].
    now exists d0.
  - destruct C; try (destruct q; discriminate Hq).
    destruct q as [|c q].
    { destruct (dict_get s d) as [x|];
        (destruct (walk L q0 _ its); cbn [bind]; [|discriminate]);
        intros [= <-]; eexists; reflexivity. }
    cbn [walkable] in Hq.
    destruct (String.eqb_spec s c) as [->|Hne].
    + assert (Hfree' : forall c0, In c0 (dict_keys its) ->
                                  is_prefix (q0 ++ [c0])%list q = false).
      { intros c0 Hin. specialize (Hfree c0 Hin). cbn in Hfree.
        now rewrite String.eqb_refl in Hfree. }
      destruct (dict_get c d) as [x|] eqn:Hx.
      * destruct (walk L q0 x its) as [child|] eqn:Hw; cbn [bind];
          [|discriminate].
        intros [= <-]. unfold clear. cbn [walkable].
        rewrite dict_get_set_same.
        apply (IH q x child Hfree'); [now exists d0 | exact Hw].
      * destruct (walk L q0 (VDict []) its) as [child|] eqn:Hw; cbn [bind];
          [|discriminate].
        intros [= <-]. unfold clear. cbn [walkable].
        rewrite dict_get_set_same.
        apply (IH q (VDict []) child Hfree'); [|exact Hw].
        exists []. apply walkable_empty.
    + destruct (dict_get s d) as [x|];
        (destruct (walk L q0 _ its); cbn [bind]; [|discriminate]);
        intros [= <-]; unfold clear; cbn [walkable];
        rewrite dict_get_set_other by congruence;
        destruct (dict_get c d); eauto.
Qed.

Lemma runs_through_false (p : parser) (n m c : string) :
  runs_through p n m = false ->
  In c (dict_keys (items p n)) ->
  is_prefix (path_of n ++ [c])%list (path_of m) = false.
Proof.
  unfold runs_through. intros H Hin.
  destruct (is_prefix _ _) eqn:E; [|reflexivity].
  rewrite <- H. symmetry. apply existsb_exists. now exists c.
Qed.

(** The sections of a document without conflict are all processed. *)
Lemma build_clear (p : parser) (done : list string) :
  forall (rest : list string) (C : value),
    Forall (fun n => clear C (path_of n)) (done ++ rest)%list ->
    Forall (fun n => all_decode L (items p n)) done ->
    conflict_free p (done ++ rest)%list = true ->
    exists C',
      build L p done C = Ok C'
      /\ Forall (fun n => clear C' (path_of n)) rest.
Proof.
  induction done as [|n done IH]; intros rest C Hclear Hdec Hfree;
    cbn [app build] in *.
  - eauto.
  - inversion Hclear as [|? ? [d0 Hn] Hrest]; subst.
    inversion Hdec as [|? ? Hdn Hdd]; subst.
    apply andb_prop in Hfree. destruct Hfree as [Hn_free Hfree].
    rewrite split_path_path_of. cbn [bind].
    destruct (eval_items_returns L _ Hdn []) as [new Hnew].
    destruct (walk_ok L _ new (path_of n) Hnew C d0 Hn) as (C1 & HC1 & _ & _).
    rewrite HC1. cbn [bind].
    apply (IH rest C1); [|exact Hdd|exact Hfree].
    rewrite forallb_forall in Hn_free. rewrite Forall_forall in *.
    intros m Hm. apply (walk_keeps_clear (items p n) (path_of n) (path_of m) C C1).
    + intros c Hc. apply (runs_through_false p n m c); [|exact Hc].
      specialize (Hn_free m Hm). now destruct (runs_through p n m).
    + now apply Hrest.
    + exact HC1.
Qed.

Lemma all_decode_get (its : dict string) (k t : string) :
  all_decode L its -> dict_get k its = Some t ->
  exists v, config_literal_eval L t = Ok v.
Proof.
  induction 1 as [|[k0 t0] its Hv _ IH]; cbn; [discriminate|].
  destruct (String.eqb k0 k); [intros [= <-]; exact Hv | exact IH].
Qed.

Lemma conflict_free_app (p : parser) (a b : list string) :
  conflict_free p (a ++ b)%list = true -> conflict_free p b = true.
Proof.
  induction a as [|n a IH]; cbn [app conflict_free]; [auto|].
  intros H. apply andb_prop in H. now apply IH.
Qed.

(** The value bound at a path is kept by the sections that leave it alone. *)
Lemma build_keeps_value (p : parser) (path : list string) (k : string)
    (v : value) (post : list string) :
  Forall (leaves_alone p path k) post ->
  forall config T,
    build L p post config = Ok T ->
    get_path config (path ++ [k])%list = Some v ->
    get_path T (path ++ [k])%list = Some v.
Proof.
  induction 1 as [|m post (q & Hq & Hm) _ IH]; intros config T; cbn [build].
  - now intros [= <-].
  - rewrite Hq. cbn [bind].
    destruct (walk L q config (items p m)) as [c'|] eqn:Hw; cbn [bind];
      [|discriminate].
    intros HT Hst. apply (IH c' T HT). rewrite <- Hst.
    destruct Hm as [Hd|(c & r & E & Hc)].
    + destruct Hd as (common & k1 & k2 & r1 & r2 & -> & E & Hne).
      rewrite E.
      exact (walk_frame L _ k2 k1 r2 r1 common (not_eq_sym Hne) config c' Hw).
    + rewrite E.
      exact (walk_prefix_frame L _ c r q Hc config c' Hw).
Qed.

End Total.

(** C8, as amended. Two sections of a document whose names decode to the
    same path and which bind the same key, and after the later of the two
    only sections that leave the key under that path alone. Whenever
    [parse_config] returns a tree, the key is bound in it, under that path,
    to the decoded value of the later section, unless the path leads to a
    set, in which case the key is a member of the set and no value is
    stored. And when every text of the document decodes and the document
    has no structural conflict, [parse_config] does return a tree, and the
    key is bound in it to the decoded value of the later section. *)
Theorem last_write_wins
    (L : pylib) (text : string) (p : parser)
    (pre mid post : list string) (n1 n2 : string)
    (path : list string) (k t1 t2 : string) :
  read_string L text = Some p ->
  sections p = (pre ++ n1 :: mid ++ n2 :: post)%list ->
  NoDup (dict_keys (cp_defaults p)) ->
  split_path n1 = Ok path ->
  split_path n2 = Ok path ->
  dict_get k (items p n1) = Some t1 ->
  dict_get k (items p n2) = Some t2 ->
  Forall (leaves_alone p path k) post ->
  (forall T,
     parse_config L text = Ok T ->
     exists v2, config_literal_eval L t2 = Ok v2 /\ stored T path k v2)
  /\ (Forall (fun n => all_decode L (items p n)) (sections p) ->
      conflict_free p (sections p) = true ->
      exists T v2,
        parse_config L text = Ok T
        /\ config_literal_eval L t2 = Ok v2
        /\ get_path T (path ++ [k])%list = Some v2).
Proof.
  intros Hread Hsec Hdef _ Hs2 _ Hk2 Hpost.
  assert (Happ : (pre ++ n1 :: mid ++ n2 :: post
                  = (pre ++ n1 :: mid) ++ n2 :: post)%list)
    by now rewrite <- app_assoc.
  unfold parse_config. rewrite Hread, Hsec, Happ. split.
  - intros T. rewrite build_app.
    destruct (build L p (pre ++ n1 :: mid) (VDict [])) as [C|]; cbn [bind];
      [|discriminate].
    cbn [build]. rewrite Hs2. cbn [bind].
    destruct (walk L path C (items p n2)) as [C2|] eqn:Hw; cbn [bind];
      [|discriminate].
    intros HT.
    destruct (walk_stores L (items p n2) k t2 path (items_NoDup p n2 Hdef) Hk2
                C C2 Hw) as (v2 & Hv2 & Hst).
    exists v2. split; [exact Hv2|].
    exact (build_keeps_stored L p path k v2 post Hpost C2 T HT Hst).
  - intros Hdec Hfree.
    apply Forall_app in Hdec. destruct Hdec as [Hdec1 Hdec2].
    inversion Hdec2 as [|? ? Hd2 Hdpost]; subst.
    destruct (build_clear L p (pre ++ n1 :: mid) (n2 :: post) (VDict []))
      as (C & HC & Hclear).
    + apply Forall_forall. intros n _. exists []. apply walkable_empty.
    + exact Hdec1.
    + exact Hfree.
    + inversion Hclear as [|? ? [d0 Hn2] Hclear_post]; subst.
      assert (Hp2 : path_of n2 = path) by (unfold path_of; now rewrite Hs2).
      rewrite Hp2 in Hn2.
      destruct (all_decode_get L _ k t2 Hd2 Hk2) as [v2 Hv2].
      destruct (walk_overwrites L (items p n2) path C d0 k t2 v2 Hn2 Hd2
                  (items_NoDup p n2 Hdef) Hk2 Hv2) as (C2 & d & HC2 & _ & Hget).
      apply conflict_free_app in Hfree.
      destruct (build_clear L p (n2 :: post) [] C) as (T & HT & _).
      * rewrite app_nil_r. exact Hclear.
      * exact Hdec2.
      * rewrite app_nil_r. exact Hfree.
      * exists T, v2. rewrite build_app, HC. cbn [bind]. rewrite HT.
        split; [reflexivity|]. split; [exact Hv2|].
        cbn [build] in HT. rewrite Hs2 in HT. cbn [bind] in HT.
        rewrite HC2 in HT. cbn [bind] in HT.
        exact (build_keeps_value L p path k v2 post Hpost C2 T HT Hget).
Qed.

Definition precedence_parser : parser :=
  mk_parser []
    [("x", [("u", "1")]); ("a", [("b", "1")]); ("y", [("u", "1")]);
     ("'a'", [("b", "2")]); ("a.c", [("u", "1")]);
     (CPython.quoted "a", [("u", "2")])].

Definition set_precedence_parser : parser :=
  mk_parser []
    [("a", [("b", "{1, 2}")]); ("a.b", [("x", "1")]); ("'a'.b", [("x", "2")])].

(** The library of the examples, reading the two documents above. *)
Definition lib_precedence : pylib :=
  mk_pylib CPython.literal_eval CPython.json_loads CPython.float_repr
    (fun text =>
       find (fun p => String.eqb (cp_write p) text)
         [precedence_parser; set_precedence_parser]).

Lemma last_write_wins_witness :
  parse_config lib_precedence (cp_write precedence_parser)
  = Ok (VDict [("x", VDict [("u", VInt 1)]);
               ("a", VDict [("b", VInt 2);
                            ("c", VDict [("u", VInt 1)]);
                            ("u", VInt 2)]);
               ("y", VDict [("u", VInt 1)])])
  /\ (exists v2,
        config_literal_eval lib_precedence "2" = Ok v2
        /\ stored
             (VDict [("x", VDict [("u", VInt 1)]);
                     ("a", VDict [("b", VInt 2);
                                  ("c", VDict [("u", VInt 1)]);
                                  ("u", VInt 2)]);
                     ("y", VDict [("u", VInt 1)])])
             ["a"] "b" v2)
  /\ (exists T v2,
        parse_config lib_precedence (cp_write precedence_parser) = Ok T
        /\ config_literal_eval lib_precedence "2" = Ok v2
        /\ get_path T (["a"] ++ ["b"])%list = Some v2).
Proof.
  destruct (last_write_wins lib_precedence (cp_write precedence_parser)
              precedence_parser ["x"] ["y"] ["a.c"; CPython.quoted "a"]
              "a" "'a'" ["a"] "b" "1" "2") as [Hany Hfree].
  - reflexivity.
  - reflexivity.
  - constructor.
  - reflexivity.
  - reflexivity.
  - reflexivity.
  - reflexivity.
  - constructor.
    + exists ["a"; "c"]. split; [reflexivity|]. left.
      exists ["a"], "c", "b", [], []. repeat split. discriminate.
    + constructor; [|constructor].
      exists ["a"]. split; [reflexivity|]. right.
      exists "b", []. split; reflexivity.
  - split; [reflexivity|]. split.
    + apply Hany. reflexivity.
    + apply Hfree.
      * repeat constructor; eexists; reflexivity.
      * reflexivity.
Defined.

(** C8 as it is stated fails when the path of the two sections leads to a
    set: [b] is bound to a set under [a], the two sections [a.b] bind [x],
    the document is decoded, and the tree holds no value for [x] under
    [a.b]: [set.update] has added the key to the set. *)
Lemma precedence_lost_over_set :
  read_string lib_precedence (cp_write set_precedence_parser)
  = Some set_precedence_parser
  /\ sections set_precedence_parser = ["a"; "a.b"; "'a'.b"]
  /\ split_path "a.b" = Ok ["a"; "b"]
  /\ split_path "'a'.b" = Ok ["a"; "b"]
  /\ dict_get "x" (items set_precedence_parser "a.b") = Some "1"
  /\ dict_get "x" (items set_precedence_parser "'a'.b") = Some "2"
  /\ config_literal_eval lib_precedence "2" = Ok (VInt 2)
  /\ parse_config lib_precedence (cp_write set_precedence_parser)
     = Ok (VDict [("a", VDict [("b", VSet [VInt 1; VInt 2; VStr "x"])])])
  /\ get_path (VDict [("a", VDict [("b", VSet [VInt 1; VInt 2; VStr "x"])])])
       ["a"; "b"; "x"]
     = None.
Proof. repeat split. Qed.
